(** * Relative-embedding pipeline of [la]: a shallow embedding

    The development follows [la/scripts/analyze_totally_disjoint.py] and
    [la/utils/utils.py]:

    - the dataset store ([MyDatasetDict]) is a Python dict from string keys to
      tables, with the metadata record under the key ["metadata"];
    - Python statements that mutate the store, or the file system, and may
      raise are written in a small state-and-exception monad;
    - tensor kernels of the numeric backend (norm, inner product, division,
      clamp) are an interface, [TensorOps]; the exact reals are one instance
      and the binary32 numbers of IEEE 754 another. *)

From Stdlib Require Import Reals Lra.
From Stdlib Require Import ZArith Lia Ascii String.
From Stdlib Require Import Floats.SpecFloat.
From stdpp Require Import base option list gmap strings pretty fin_maps sorting.

Local Open Scope Z_scope.
Local Open Scope string_scope.
Local Open Scope nat_scope.

(** ** Python exceptions *)

(** A key of a Python dict: a string, or an integer. *)
Inductive pykey :=
| KStr (s : string)
| KInt (z : Z).

Inductive exn :=
| KeyError (k : pykey)              (* d[k] on a key that d does not hold *)
| TypeError                         (* a value of the wrong kind was indexed *)
| ValueError (msg : string)         (* int(s) on a non-numeral; concatenating [] *)
| AssertionError                    (* a bare [assert c]: no arguments, no message *)
| RuntimeError_size (a b : nat)     (* torch: "The size of tensor a (a) must match
                                       the size of tensor b (b)" *)
| RuntimeError_matmul (n m : nat)   (* torch: mat1 and mat2 shapes cannot be multiplied *)
| ArrowInvalid                      (* Dataset.from_dict: columns of unequal length *)
| FileNotFoundError (path : list string)
| FileExistsError (path : list string)    (* a directory is to be made where a file is *)
| IsADirectoryError (path : list string). (* a directory is opened as a file *)

(** ** State and exception monad

    A statement runs on a state [S] and either returns or raises; the state it
    leaves behind is kept in both cases, as an in-place mutation before a raise
    is not rolled back. *)

Definition M (S A : Type) : Type := S → (exn + A) * S.

Definition ret {S A} (a : A) : M S A := λ s, (inr a, s).
Definition raise {S A} (e : exn) : M S A := λ s, (inl e, s).
Definition bind {S A B} (m : M S A) (k : A → M S B) : M S B :=
  λ s, match m s with
       | (inr a, s') => k a s'
       | (inl e, s') => (inl e, s')
       end.
Definition get {S} : M S S := λ s, (inr s, s).
Definition put {S} (s : S) : M S unit := λ _, (inr tt, s).
Definition modify {S} (f : S → S) : M S unit := λ s, (inr tt, f s).

Declare Scope py_scope.
Delimit Scope py_scope with py.
Notation "x <- m ;; k" := (bind m (λ x, k))
  (at level 100, m at next level, right associativity) : py_scope.
Notation "m ;;; k" := (bind m (λ _, k))
  (at level 100, right associativity) : py_scope.
Local Open Scope py_scope.

(** [for x in xs: body x] *)
Fixpoint for_each {S A} (xs : list A) (body : A → M S unit) : M S unit :=
  match xs with
  | [] => ret tt
  | x :: xs' => body x ;;; for_each xs' body
  end.

(** [assert c] *)
Definition py_assert {S} (c : bool) : M S unit :=
  if c then ret tt else raise AssertionError.

(** [range(a, b)] *)
Definition range (a b : nat) : list nat := seq a (b - a).

(** ** Store keys: [f"task_{task_ind}_{mode}"] *)

Definition task_key (task_ind : nat) (mode : string) : string :=
  "task_" +:+ pretty task_ind +:+ "_" +:+ mode.

Definition is_digit (c : ascii) : Prop :=
  c ∈ ["0"; "1"; "2"; "3"; "4"; "5"; "6"; "7"; "8"; "9"]%char.

Fixpoint all_digits (s : string) : Prop :=
  match s with
  | EmptyString => True
  | String c s' => is_digit c ∧ all_digits s'
  end.

(** ** Tensor kernels of the numeric backend

    The pipeline calls the backend for the 2-norm of a row, the clamp from
    below, the division and the inner product of a matrix product. The
    scalars are floating-point numbers there; how the backend rounds and in
    which order it sums is not fixed by the pipeline, so the kernels are an
    interface. *)

Class TensorOps (F : Type) := {
  vector_norm : list F → F;      (* [v.norm(p=2)] of one row *)
  clamp_min : F → F → F;         (* [x.clamp_min(m)] *)
  fdiv : F → F → F;              (* [x / d] *)
  dot : list F → list F → F;     (* one entry of [X @ Y]: row times column *)
  eps : F;                       (* [eps=1e-12], the default of [F.normalize] *)
}.

Section Pipeline.

Context {F : Type} `{TensorOps F}.

(** Python's [int(s)] on a string; [None] stands for [ValueError]. *)
Variable py_int : string → option Z.

(** *** Tensors *)

(** A 2-D tensor, by rows. *)
Definition width (m : list (list F)) : nat :=
  match m with
  | [] => 0
  | r :: _ => length r
  end.

Fixpoint transpose_w (w : nat) (m : list (list F)) : list (list F) :=
  match m with
  | [] => replicate w []
  | r :: m' => zip_with cons r (transpose_w w m')
  end.

(** [m.T] *)
Definition transpose (m : list (list F)) : list (list F) :=
  transpose_w (width m) m.

(** [x @ y] for x of shape (N, D) and y of shape (D', A): the backend refuses
    D ≠ D'. *)
Definition matmul (x y : list (list F)) : exn + list (list F) :=
  if forallb (λ r, length r =? length y) x
  then inr (map (λ r, map (dot r) (transpose y)) x)
  else inl (RuntimeError_matmul (width x) (length y)).

(** [F.normalize(v, p=2, dim=-1)] on one row:
    [v / v.norm(2).clamp_min(eps)]. *)
Definition normalize_row (v : list F) : list F :=
  let denom := clamp_min (vector_norm v) eps in
  map (λ x, fdiv x denom) v.

(** [F.normalize(m, p=2, dim=-1)] *)
Definition normalize (m : list (list F)) : list (list F) :=
  map normalize_row m.

(** [torch.eq(a, b)], also [a == b], on 1-D integer tensors: elementwise, with
    broadcasting of a tensor of size 1 against the other. *)
Definition torch_eq (a b : list Z) : exn + list bool :=
  if length a =? length b then inr (zip_with Z.eqb a b)
  else match a, b with
       | [x], _ => inr (map (Z.eqb x) b)
       | _, [x] => inr (map (λ e, Z.eqb e x) a)
       | _, _ => inl (RuntimeError_size (length a) (length b))
       end.

(** [torch.all(t)] *)
Definition torch_all (t : list bool) : bool := forallb (λ b, b) t.

(** *** Tables *)

(** A [datasets.Dataset] with the columns the pipeline uses; the column
    [relative_embeddings] is absent until the projection adds it. *)
Record Dataset := {
  ds_embedding : list (list F);
  ds_y : list Z;
  ds_id : list Z;
  ds_relative_embeddings : option (list (list F));
}.

(** [len(ds)] *)
Definition ds_len (ds : Dataset) : nat := length (ds_id ds).

(** All columns of a table have the same number of rows. *)
Definition wf_dataset (ds : Dataset) : Prop :=
  length (ds_embedding ds) = ds_len ds ∧
  length (ds_y ds) = ds_len ds ∧
  match ds_relative_embeddings ds with
  | Some rel => length rel = ds_len ds
  | None => True
  end.

(** [Dataset.from_dict(d)]: the columns must have one length. *)
Definition from_dict (d : Dataset) : exn + Dataset :=
  let n := length (ds_embedding d) in
  if (length (ds_y d) =? n) && (length (ds_id d) =? n) &&
     match ds_relative_embeddings d with
     | Some rel => length rel =? n
     | None => true
     end
  then inr d else inl ArrowInvalid.

(** [add_tensor_column(dataset, "relative_embeddings", tensor)]:
    [to_dict], assignment of the column, [from_dict]. The table that
    [from_dict] returns has no format: the source sets the torch format
    again (lines 129-130) before it reads a column of it as a tensor. The
    format of a table is not part of this development, and no statement
    below reads the embeddings of a table that has got the column. *)
Definition add_tensor_column (dataset : Dataset) (tensor : list (list F))
  : exn + Dataset :=
  let dataset_dict := dataset in
  let dataset_dict :=
    {| ds_embedding := ds_embedding dataset_dict;
       ds_y := ds_y dataset_dict;
       ds_id := ds_id dataset_dict;
       ds_relative_embeddings := Some tensor |} in
  from_dict dataset_dict.

(** *** The store *)

Record Metadata := {
  num_tasks : nat;
  (* task name ↦ items of the dict (global label as a string ↦ local label),
     in the dict's iteration order *)
  global_to_local_class_mappings : gmap string (list (string * Z));
}.

Inductive entry :=
| EDataset (ds : Dataset)
| EMetadata (md : Metadata).

(** [data[k]] *)
Definition getitem (k : string) : M (gmap string entry) entry :=
  λ data, match data !! k with
          | Some e => (inr e, data)
          | None => (inl (KeyError (KStr k)), data)
          end.

(** [data[k]] used as a table *)
Definition get_dataset (k : string) : M (gmap string entry) Dataset :=
  e <- getitem k ;;
  match e with
  | EDataset ds => ret ds
  | EMetadata _ => raise TypeError
  end.

(** [data["metadata"]] used as the metadata dict *)
Definition get_metadata : M (gmap string entry) Metadata :=
  e <- getitem "metadata" ;;
  match e with
  | EMetadata md => ret md
  | EDataset _ => raise TypeError
  end.

(** [data[k] = v] *)
Definition setitem (k : string) (v : entry) : M (gmap string entry) unit :=
  modify (<[k := v]>).

(** A pure computation that may raise, run as a statement. *)
Definition lift {S A} (r : exn + A) : M S A :=
  match r with
  | inr a => ret a
  | inl e => raise e
  end.

(** *** Label reconciliation: [map_labels_to_global] *)

(** [{v: int(k) for k, v in global_to_local_map.items()}]: a later item
    overwrites an earlier one with the same local label. *)
Fixpoint invert_items (items : list (string * Z)) (acc : gmap Z Z)
  : exn + gmap Z Z :=
  match items with
  | [] => inr acc
  | (k, v) :: rest =>
      match py_int k with
      | Some g => invert_items rest (<[v := g]> acc)
      | None => inl (ValueError k)
      end
  end.

(** [local_to_global_map[l]] *)
Definition lookup_label (local_to_global_map : gmap Z Z) (l : Z) : exn + Z :=
  match local_to_global_map !! l with
  | Some g => inr g
  | None => inl (KeyError (KInt l))
  end.

(** Rows are visited in order; the first raise ends the traversal. *)
Fixpoint try_map {A B} (f : A → exn + B) (l : list A) : exn + list B :=
  match l with
  | [] => inr []
  | a :: l' =>
      match f a with
      | inl e => inl e
      | inr b => match try_map f l' with
                 | inl e => inl e
                 | inr bs => inr (b :: bs)
                 end
      end
  end.

(** [ds.map(lambda row: {"y": local_to_global_map[row["y"].item()]})] *)
Definition map_labels (local_to_global_map : gmap Z Z) (ds : Dataset)
  : exn + Dataset :=
  match try_map (lookup_label local_to_global_map) (ds_y ds) with
  | inl e => inl e
  | inr ys =>
      inr {| ds_embedding := ds_embedding ds;
             ds_y := ys;
             ds_id := ds_id ds;
             ds_relative_embeddings := ds_relative_embeddings ds |}
  end.

(** [f"task_{task_ind}"], the key of a task in the metadata *)
Definition task_name (task_ind : nat) : string := "task_" +:+ pretty task_ind.

Definition map_labels_to_global (num_tasks : nat) : M (gmap string entry) unit :=
  for_each (range 1 (num_tasks + 1)) (λ task_ind,
    md <- get_metadata ;;
    global_to_local_map <-
      lift (match global_to_local_class_mappings md !! task_name task_ind with
            | Some items => inr items
            | None => inl (KeyError (KStr (task_name task_ind)))
            end) ;;
    local_to_global_map <- lift (invert_items global_to_local_map ∅) ;;
    for_each ["train"; "val"; "test"] (λ mode,
      ds <- get_dataset (task_key task_ind mode) ;;
      ds' <- lift (map_labels local_to_global_map ds) ;;
      setitem (task_key task_ind mode) (EDataset ds'))).

(** *** Anchor consistency: [check_same_anchor_ids] *)

Definition check_same_anchor_ids (num_tasks : nat) : M (gmap string entry) unit :=
  for_each (range 0 (num_tasks + 1)) (λ task_i,
    for_each (range task_i (num_tasks + 1)) (λ task_j,
      anchors_i <- get_dataset (task_key task_i "anchors") ;;
      anchors_j <- get_dataset (task_key task_j "anchors") ;;
      same <- lift (torch_eq (ds_id anchors_i) (ds_id anchors_j)) ;;
      py_assert (torch_all same))).

(** *** Projection: the loop "map to relative" of
    [single_configuration_experiment] *)

Definition map_to_relative (num_tasks : nat) : M (gmap string entry) unit :=
  for_each (range 0 (num_tasks + 1)) (λ task_ind,
    anchors <- get_dataset (task_key task_ind "anchors") ;;
    let task_anchors := ds_embedding anchors in
    let norm_anchors := normalize task_anchors in
    for_each ["train"; "test"] (λ mode,
      ds <- get_dataset (task_key task_ind mode) ;;
      let task_embeddings := ds_embedding ds in
      let abs_space := normalize task_embeddings in
      rel_space <- lift (matmul abs_space (transpose norm_anchors)) ;;
      ds <- get_dataset (task_key task_ind mode) ;;
      ds' <- lift (add_tensor_column ds rel_space) ;;
      setitem (task_key task_ind mode) (EDataset ds'))).

(** *** Merge and alignment check *)

(** Rows of a column at the given indices, in the order of the indices. *)
Definition take_rows {A} (indices : list nat) (col : list A) : list A :=
  omap (λ i, col !! i) indices.

(** Order of two (index, id) pairs by id. *)
Definition le_by_id (p q : nat * Z) : Prop := (p.2 ≤ q.2)%Z.

Global Instance le_by_id_dec : RelDecision le_by_id.
Proof. intros p q. unfold le_by_id. apply _. Defined.

(** The indices of the rows in ascending order of [ids]. *)
Definition argsort (ids : list Z) : list nat :=
  (merge_sort le_by_id (zip (seq 0 (length ids)) ids)).*1.

(** [ds.sort("id")]: the rows in ascending order of the column [id]. The
    order among rows of equal id is the library's; nothing below depends
    on it. *)
Definition sort_by_id (ds : Dataset) : Dataset :=
  let indices := argsort (ds_id ds) in
  {| ds_embedding := take_rows indices (ds_embedding ds);
     ds_y := take_rows indices (ds_y ds);
     ds_id := take_rows indices (ds_id ds);
     ds_relative_embeddings := take_rows indices <$> ds_relative_embeddings ds |}.

(** Two tables, one after the other; the tables must have the same columns. *)
Definition append_datasets (a b : Dataset) : exn + Dataset :=
  match ds_relative_embeddings a, ds_relative_embeddings b with
  | Some ra, Some rb =>
      inr {| ds_embedding := (ds_embedding a ++ ds_embedding b)%list;
             ds_y := (ds_y a ++ ds_y b)%list;
             ds_id := (ds_id a ++ ds_id b)%list;
             ds_relative_embeddings := Some (ra ++ rb)%list |}
  | None, None =>
      inr {| ds_embedding := (ds_embedding a ++ ds_embedding b)%list;
             ds_y := (ds_y a ++ ds_y b)%list;
             ds_id := (ds_id a ++ ds_id b)%list;
             ds_relative_embeddings := None |}
  | _, _ => inl (ValueError "The features can't be aligned")
  end.

(** [concatenate_datasets(dsets)] *)
Fixpoint concatenate_from (acc : Dataset) (dsets : list Dataset) : exn + Dataset :=
  match dsets with
  | [] => inr acc
  | ds :: rest =>
      match append_datasets acc ds with
      | inl e => inl e
      | inr acc' => concatenate_from acc' rest
      end
  end.

Definition concatenate_datasets (dsets : list Dataset) : exn + Dataset :=
  match dsets with
  | [] => inl (ValueError "Unable to concatenate an empty iterable of Datasets")
  | ds :: rest => concatenate_from ds rest
  end.

(** [[data[f"task_{i}_{mode}"] for i in tasks]] *)
Fixpoint collect (tasks : list nat) (mode : string)
  : M (gmap string entry) (list Dataset) :=
  match tasks with
  | [] => ret []
  | i :: rest =>
      ds <- get_dataset (task_key i mode) ;;
      dss <- collect rest mode ;;
      ret (ds :: dss)
  end.

(** What the merge stage hands to the evaluators. *)
Record Merged := {
  original_dataset_train : Dataset;
  original_dataset_test : Dataset;
  merged_dataset_train : Dataset;
  merged_dataset_test : Dataset;
}.

(** Lines 132-145 of [single_configuration_experiment]. The check of the
    train split is a comment in the source and so is no statement here. *)
Definition merge_stage (num_tasks : nat) : M (gmap string entry) Merged :=
  trains <- collect (range 1 (num_tasks + 1)) "train" ;;
  merged_train <- lift (concatenate_datasets trains) ;;
  tests <- collect (range 1 (num_tasks + 1)) "test" ;;
  merged_test <- lift (concatenate_datasets tests) ;;
  original_train <- get_dataset (task_key 0 "train") ;;
  let original_train := sort_by_id original_train in
  original_test <- get_dataset (task_key 0 "test") ;;
  let original_test := sort_by_id original_test in
  let merged_train := sort_by_id merged_train in
  let merged_test := sort_by_id merged_test in
  same <- lift (torch_eq (ds_id merged_test) (ds_id original_test)) ;;
  py_assert (torch_all same) ;;;
  ret {| original_dataset_train := original_train;
         original_dataset_test := original_test;
         merged_dataset_train := merged_train;
         merged_dataset_test := merged_test |}.

(** *** Persistence: [MyDatasetDict.save_to_disk], [load_from_disk]

    A path is the list of its parts, as in [pathlib]; [Path(p) / name] adds a
    part. A JSON file is held as the document it denotes: [json.dump] and
    [json.load] are inverse to each other on a metadata record, whose keys are
    strings and whose leaves are integers. *)

Definition path_join (p : list string) (name : string) : list string :=
  (p ++ [name])%list.

Inductive file :=
| FEmpty                               (* opened for writing, nothing written *)
| FJsonMetadata (md : Metadata)        (* a metadata record as JSON *)
| FJsonSplits (splits : list string)   (* [{"splits": [...]}] *)
| FTable (ds : Dataset).               (* the directory of one saved table *)

Record disk := {
  dirs : gset (list string);
  files : gmap (list string) file;
}.

Definition with_dir (p : list string) (d : disk) : disk :=
  {| dirs := {[p]} ∪ dirs d; files := files d |}.
Definition with_file (p : list string) (f : file) (d : disk) : disk :=
  {| dirs := dirs d; files := <[p := f]> (files d) |}.

(** A statement on the store, and one on the file system, as statements on
    both. *)
Definition on_self {A} (m : M (gmap string entry) A)
  : M (gmap string entry * disk) A :=
  λ s, let '(r, data) := m s.1 in (r, (data, s.2)).
Definition on_disk {A} (m : M disk A) : M (gmap string entry * disk) A :=
  λ s, let '(r, d) := m s.2 in (r, (s.1, d)).

(** [open(dir / name, "w")]: the directory must exist; the file is created
    or emptied. *)
Definition open_w (dir : list string) (name : string) : M disk unit :=
  λ d, let p := path_join dir name in
       if decide (dir ∈ dirs d) then
         match files d !! p with
         | Some (FTable _) => (inl (IsADirectoryError p), d)
         | _ => (inr tt, with_file p FEmpty d)
         end
       else (inl (FileNotFoundError p), d).

(** [json.dump(v, f)]; a table is not JSON serializable. *)
Definition json_dump (v : entry) (p : list string) : M disk unit :=
  match v with
  | EMetadata md => modify (with_file p (FJsonMetadata md))
  | EDataset _ => raise TypeError
  end.

(** [save_metadata(self, dir / name)] *)
Definition save_metadata (dir : list string) (name : string)
  : M (gmap string entry * disk) unit :=
  on_disk (open_w dir name) ;;;
  md <- on_self (getitem "metadata") ;;
  on_disk (json_dump md (path_join dir name)).

(** [Dataset.save_to_disk(p)]: makes the directory [p] and writes the table
    into it. *)
Definition table_save (p : list string) (ds : Dataset) : M disk unit :=
  λ d, match files d !! p with
       | Some (FTable _) | None => (inr tt, with_file p (FTable ds) (with_dir p d))
       | Some _ => (inl (FileExistsError p), d)
       end.

(** [DatasetDict.save_to_disk(path)], the generic bulk path: the list of the
    keys goes to [dataset_dict.json], each value is saved as a table in the
    sub-directory of its key. The keys are visited in the order of the map. *)
Definition bulk_save (path : list string) (data : gmap string entry)
  : M disk unit :=
  modify (with_dir path) ;;;
  open_w path "dataset_dict.json" ;;;
  modify (with_file (path_join path "dataset_dict.json")
            (FJsonSplits (map_to_list data).*1)) ;;;
  for_each (map_to_list data) (λ kv,
    match kv.2 with
    | EDataset ds => table_save (path_join path kv.1) ds
    | EMetadata _ => raise TypeError
    end).

Definition save_to_disk (dataset_dict_path : list string)
  : M (gmap string entry * disk) unit :=
  save_metadata dataset_dict_path "metadata.json" ;;;
  tmp <- on_self (getitem "metadata") ;;
  on_self (modify (delete "metadata")) ;;;
  self <- on_self get ;;
  on_disk (bulk_save dataset_dict_path self) ;;;
  on_self (setitem "metadata" tmp).

(** [Dataset.load_from_disk(p)] *)
Definition table_load (p : list string) : M disk Dataset :=
  λ d, match files d !! p with
       | Some (FTable ds) => (inr ds, d)
       | _ => (inl (FileNotFoundError p), d)
       end.

Fixpoint load_splits (path : list string) (splits : list string)
  (acc : gmap string entry) : M disk (gmap string entry) :=
  match splits with
  | [] => ret acc
  | k :: rest =>
      ds <- table_load (path_join path k) ;;
      load_splits path rest (<[k := EDataset ds]> acc)
  end.

(** [DatasetDict.load_from_disk(path)] *)
Definition bulk_load (path : list string) : M disk (gmap string entry) :=
  d <- get ;;
  match files d !! path_join path "dataset_dict.json" with
  | Some (FJsonSplits splits) => load_splits path splits ∅
  | Some _ => raise (ValueError "dataset_dict.json")
  | None => raise (FileNotFoundError (path_join path "dataset_dict.json"))
  end.

(** [json.load(open(p))] on a file that holds a metadata record. The code
    validates nothing: a JSON document of another shape is returned as it
    is, and has no counterpart among the entries of the store of this
    development, where this case is an exception; the statements on loading
    are about a [metadata.json] that holds a record. *)
Definition json_load (p : list string) : M disk Metadata :=
  λ d, match files d !! p with
       | Some (FJsonMetadata md) => (inr md, d)
       | Some (FTable _) => (inl (IsADirectoryError p), d)
       | Some _ => (inl (ValueError "metadata.json"), d)
       | None => (inl (FileNotFoundError p), d)
       end.

(** [MyDatasetDict.load_from_disk(dataset_dict_path)]; the attribute
    [data_keys] it also sets is no entry of the dict. *)
Definition load_from_disk (dataset_dict_path : list string)
  : M disk (gmap string entry) :=
  dataset <- bulk_load dataset_dict_path ;;
  md <- json_load (path_join dataset_dict_path "metadata.json") ;;
  ret (<["metadata" := EMetadata md]> dataset).

(** *** Parts of the loops, named for the statements below *)

(** The table under a key. *)
Definition table_of (data : gmap string entry) (k : string) : option Dataset :=
  match data !! k with
  | Some (EDataset ds) => Some ds
  | _ => None
  end.

(** The inverted map of a task, when the task has a mapping and every key of
    it is a numeral. *)
Definition local_to_global (md : Metadata) (task_ind : nat) : option (gmap Z Z) :=
  match global_to_local_class_mappings md !! task_name task_ind with
  | Some items =>
      match invert_items items ∅ with
      | inr m => Some m
      | inl _ => None
      end
  | None => None
  end.

Definition label_modes : list string := ["train"; "val"; "test"].

(** One round of the inner loop of [map_labels_to_global]. *)
Definition relabel_mode (local_to_global_map : gmap Z Z) (task_ind : nat)
  (mode : string) : M (gmap string entry) unit :=
  ds <- get_dataset (task_key task_ind mode) ;;
  ds' <- lift (map_labels local_to_global_map ds) ;;
  setitem (task_key task_ind mode) (EDataset ds').

(** One round of its outer loop. *)
Definition relabel_task (task_ind : nat) : M (gmap string entry) unit :=
  md <- get_metadata ;;
  global_to_local_map <-
    lift (match global_to_local_class_mappings md !! task_name task_ind with
          | Some items => inr items
          | None => inl (KeyError (KStr (task_name task_ind)))
          end) ;;
  local_to_global_map <- lift (invert_items global_to_local_map ∅) ;;
  for_each ["train"; "val"; "test"] (relabel_mode local_to_global_map task_ind).

(** A split of a task holds a local label that the inverted map of the task
    has no key for. *)
Definition missing_label (data : gmap string entry) (md : Metadata) (n : nat)
  (l : Z) : Prop :=
  ∃ i mode ds m,
    1 ≤ i ≤ n ∧ mode ∈ label_modes ∧
    table_of data (task_key i mode) = Some ds ∧
    local_to_global md i = Some m ∧
    l ∈ ds_y ds ∧ m !! l = None.

(** [ds'] is [ds] with each label replaced by its image under [m]: the rows
    keep their order and the other columns are the same. *)
Definition relabeled (m : gmap Z Z) (ds ds' : Dataset) : Prop :=
  ds_embedding ds' = ds_embedding ds ∧
  ds_id ds' = ds_id ds ∧
  ds_relative_embeddings ds' = ds_relative_embeddings ds ∧
  Forall2 (λ l g, m !! l = Some g) (ds_y ds) (ds_y ds').

(** The store is fit for label reconciliation: it holds the metadata record
    [md], every task 1..n has a mapping all of whose keys are numerals, and
    the three splits of every such task are in the store. *)
Definition labels_wf (data : gmap string entry) (md : Metadata) (n : nat) : Prop :=
  data !! "metadata" = Some (EMetadata md) ∧
  (∀ i, 1 ≤ i ≤ n → is_Some (local_to_global md i)) ∧
  (∀ i mode, 1 ≤ i ≤ n → mode ∈ label_modes →
     is_Some (table_of data (task_key i mode))).

(** [g] is a global label that the items of a global-to-local mapping send
    to the local label [l]. *)
Definition inverse_image (items : list (string * Z)) (l g : Z) : Prop :=
  ∃ k, (k, l) ∈ items ∧ py_int k = Some g.

(** *** Parts of the projection loop, named for the statements below *)

Definition projection_modes : list string := ["train"; "test"].

(** One round of the inner loop of the projection. *)
Definition project_mode (norm_anchors : list (list F)) (task_ind : nat)
  (mode : string) : M (gmap string entry) unit :=
  ds <- get_dataset (task_key task_ind mode) ;;
  let task_embeddings := ds_embedding ds in
  let abs_space := normalize task_embeddings in
  rel_space <- lift (matmul abs_space (transpose norm_anchors)) ;;
  ds <- get_dataset (task_key task_ind mode) ;;
  ds' <- lift (add_tensor_column ds rel_space) ;;
  setitem (task_key task_ind mode) (EDataset ds').

(** One round of its outer loop. *)
Definition project_task (task_ind : nat) : M (gmap string entry) unit :=
  anchors <- get_dataset (task_key task_ind "anchors") ;;
  let task_anchors := ds_embedding anchors in
  let norm_anchors := normalize task_anchors in
  for_each ["train"; "test"] (project_mode norm_anchors task_ind).

(** All rows of a tensor have [d] entries. *)
Definition has_width (d : nat) (m : list (list F)) : Prop :=
  Forall (λ r, length r = d) m.

(** The store is fit for the projection with embeddings of dimension [d]:
    every task 0..n has a non-empty anchor split and the splits train and
    test, as tables of well-formed columns with embeddings of [d] > 0
    entries. *)
Definition projection_wf (data : gmap string entry) (n d : nat) : Prop :=
  0 < d ∧
  ∀ i, i ≤ n →
    (∃ anchors, table_of data (task_key i "anchors") = Some anchors ∧
                ds_embedding anchors ≠ [] ∧
                has_width d (ds_embedding anchors)) ∧
    (∀ mode, mode ∈ projection_modes →
       ∃ ds, table_of data (task_key i mode) = Some ds ∧
             wf_dataset ds ∧ has_width d (ds_embedding ds)).

(** Row [x] of the samples against each anchor: the inner products of the
    normalized sample with the normalized anchors. *)
Definition relative_row (anchors : list (list F)) (x : list F) : list F :=
  (λ a, dot (normalize_row x) (normalize_row a)) <$> anchors.

(** [ds'] is [ds] with the column [relative_embeddings] set to [rel]. *)
Definition with_relative (ds : Dataset) (rel : list (list F)) : Dataset :=
  {| ds_embedding := ds_embedding ds;
     ds_y := ds_y ds;
     ds_id := ds_id ds;
     ds_relative_embeddings := Some rel |}.

End Pipeline.

(** ** The exact reals as scalars

    The kernels over the real numbers: the arithmetic that the float32
    kernels of the backend approximate, without rounding, overflow,
    infinities or NaN. A statement over this instance is a statement about
    exact arithmetic and says so; the binary32 instance is further down. *)

Definition Rdot (u v : list R) : R := foldr Rplus 0%R (zip_with Rmult u v).

Global Instance R_ops : TensorOps R := {|
  vector_norm v := sqrt (Rdot v v);
  clamp_min := Rmax;
  fdiv := Rdiv;
  dot := Rdot;
  eps := (1 / 10 ^ 12)%R;
|}.

(** ** Decimal numerals

    [int(s)] on the numerals that [json.dump] writes for integer keys: an
    optional minus sign and decimal digits. *)

Definition digit_value (c : ascii) : option Z :=
  let code := nat_of_ascii c in
  if (48 <=? code) && (code <=? 57)
  then Some (Z.of_nat (code - 48))
  else None.

Fixpoint parse_digits (s : string) (acc : Z) : option Z :=
  match s with
  | EmptyString => Some acc
  | String c s' =>
      match digit_value c with
      | Some d => parse_digits s' (10 * acc + d)%Z
      | None => None
      end
  end.

Definition parse_decimal (s : string) : option Z :=
  match s with
  | EmptyString => None
  | String "-" EmptyString => None
  | String "-" s' => Z.opp <$> parse_digits s' 0%Z
  | _ => parse_digits s 0%Z
  end.

(** ** Reading the store, for the statements below *)

(** The column [id] of the table under a key. *)
Definition ids_of {F} (data : gmap string (@entry F)) (k : string)
  : option (list Z) :=
  match data !! k with
  | Some (EDataset ds) => Some (ds_id ds)
  | _ => None
  end.

(** The outcome of [assert torch.all(a == b)] on two id columns. *)
Definition assert_all_eq (a b : list Z) : exn + unit :=
  match torch_eq a b with
  | inl e => inl e
  | inr same => if torch_all same then inr () else inl AssertionError
  end.

(** Sizes that the backend broadcasts: different, and one of them 1. *)
Definition broadcasts (a b : list Z) : Prop :=
  length a ≠ length b ∧ (length a = 1 ∨ length b = 1).

(** ** Statements that only read the state *)

Definition readonly {S A} (m : M S A) : Prop := ∀ s, (m s).2 = s.

(** One round of the inner loop of [check_same_anchor_ids]. *)
Definition anchor_pair {F} (task_i task_j : nat)
  : M (gmap string (@entry F)) unit :=
  anchors_i <- get_dataset (task_key task_i "anchors") ;;
  anchors_j <- get_dataset (task_key task_j "anchors") ;;
  same <- lift (torch_eq (ds_id anchors_i) (ds_id anchors_j)) ;;
  py_assert (torch_all same).

(** The merge stage as a function of what it reads. *)
Definition merge_outcome {F} (trains tests : exn + list (@Dataset F))
  (original_train original_test : exn + @Dataset F) : exn + @Merged F :=
  match trains with inl e => inl e | inr trains =>
  match concatenate_datasets trains with inl e => inl e | inr merged_train =>
  match tests with inl e => inl e | inr tests =>
  match concatenate_datasets tests with inl e => inl e | inr merged_test =>
  match original_train with inl e => inl e | inr original_train =>
  match original_test with inl e => inl e | inr original_test =>
  match assert_all_eq (ds_id (sort_by_id merged_test))
          (ds_id (sort_by_id original_test)) with
  | inl e => inl e
  | inr _ =>
      inr {| original_dataset_train := sort_by_id original_train;
             original_dataset_test := sort_by_id original_test;
             merged_dataset_train := sort_by_id merged_train;
             merged_dataset_test := sort_by_id merged_test |}
  end end end end end end end.

(** ** What an error report about two id sequences would name *)

Inductive mismatch :=
| DiffersAt (k : nat)
| LengthsDiffer.

(** The first index at which two sequences differ, or that one is a proper
    prefix of the other. *)
Fixpoint first_mismatch (a b : list Z) : option mismatch :=
  match a, b with
  | [], [] => None
  | x :: a', y :: b' =>
      if Z.eqb x y then
        match first_mismatch a' b' with
        | Some (DiffersAt k) => Some (DiffersAt (S k))
        | r => r
        end
      else Some (DiffersAt 0)
  | _, _ => Some LengthsDiffer
  end.

(** The exception of the anchor check identifies the mismatch: some reading
    [describe] of the exception gives it, for every store of two tasks. *)
Definition anchor_error_identifies (describe : exn → mismatch) : Prop :=
  ∀ (data : gmap string (@entry R)) (a b : list Z) (e : exn),
    ids_of data (task_key 0 "anchors") = Some a →
    ids_of data (task_key 1 "anchors") = Some b →
    (check_same_anchor_ids 1 data).1 = inl e →
    first_mismatch a b = Some (describe e).

(** ** Example stores *)

Definition table (emb : list (list R)) (ys ids : list Z)
  (rel : option (list (list R))) : @Dataset R :=
  {| ds_embedding := emb; ds_y := ys; ds_id := ids;
     ds_relative_embeddings := rel |}.

Definition three_anchors (ids : list Z) : @Dataset R :=
  table [[1; 0; 0; 0]; [0; 1; 0; 0]; [0; 0; 1; 0]]%R [0; 1; 2]%Z ids None.

(** Two tasks whose anchors differ at index 0, and at index 2. *)
Definition anchors_differ_at_0 : gmap string (@entry R) :=
  list_to_map [
    (task_key 0 "anchors", EDataset (three_anchors [100; 101; 102]%Z));
    (task_key 1 "anchors", EDataset (three_anchors [999; 101; 102]%Z))].

Definition anchors_differ_at_2 : gmap string (@entry R) :=
  list_to_map [
    (task_key 0 "anchors", EDataset (three_anchors [100; 101; 102]%Z));
    (task_key 1 "anchors", EDataset (three_anchors [100; 101; 999]%Z))].

Definition anchors_agree : gmap string (@entry R) :=
  list_to_map [
    (task_key 0 "anchors", EDataset (three_anchors [100; 101; 102]%Z));
    (task_key 1 "anchors", EDataset (three_anchors [100; 101; 102]%Z));
    (task_key 2 "anchors", EDataset (three_anchors [100; 101; 102]%Z))].

(** A table with the given ids, whose other columns do not matter. *)
Definition rows_with_ids (ids : list Z) : @Dataset R :=
  table ((λ _, [1; 0]%R) <$> ids) ((λ _, 0%Z) <$> ids) ids
        (Some ((λ _, [1; 0; 0]%R) <$> ids)).

(** Two tasks with test ids [1; 2] and [3; 4]; the reference test set has
    the ids 1..4, and the reference train set has the anchors 100..102 on
    top of the train samples 10, 11 of the two tasks. *)
Definition merge_scenario : gmap string (@entry R) :=
  list_to_map [
    (task_key 0 "train", EDataset (rows_with_ids [100; 10; 101; 11; 102]%Z));
    (task_key 1 "train", EDataset (rows_with_ids [11]%Z));
    (task_key 2 "train", EDataset (rows_with_ids [10]%Z));
    (task_key 0 "test", EDataset (rows_with_ids [4; 3; 2; 1]%Z));
    (task_key 1 "test", EDataset (rows_with_ids [2; 1]%Z));
    (task_key 2 "test", EDataset (rows_with_ids [4; 3]%Z))].

(** The test sample 5 of the reference set is in the test split of both
    task 1 and task 2. *)
Definition test_sample_duplicated : gmap string (@entry R) :=
  list_to_map [
    (task_key 0 "train", EDataset (rows_with_ids [10; 11]%Z));
    (task_key 1 "train", EDataset (rows_with_ids [11]%Z));
    (task_key 2 "train", EDataset (rows_with_ids [10]%Z));
    (task_key 0 "test", EDataset (rows_with_ids [5]%Z));
    (task_key 1 "test", EDataset (rows_with_ids [5]%Z));
    (task_key 2 "test", EDataset (rows_with_ids [5]%Z))].

(** Two tasks of two classes each: task 1 holds the global classes 3 and 7,
    task 2 the global classes 1 and 4. *)
Definition two_task_metadata : Metadata :=
  {| num_tasks := 2;
     global_to_local_class_mappings :=
       list_to_map [("task_1", [("3", 0%Z); ("7", 1%Z)]);
                    ("task_2", [("1", 0%Z); ("4", 1%Z)])] |}.

Definition labelled (ys ids : list Z) : @Dataset R :=
  table ((λ _, [1; 0]%R) <$> ids) ys ids None.

Definition local_labels : gmap string (@entry R) :=
  list_to_map [
    ("metadata", EMetadata two_task_metadata);
    (task_key 1 "train", EDataset (labelled [0; 1; 1]%Z [10; 11; 12]%Z));
    (task_key 1 "val", EDataset (labelled [1]%Z [13]%Z));
    (task_key 1 "test", EDataset (labelled [1; 0]%Z [20; 21]%Z));
    (task_key 2 "train", EDataset (labelled [1; 0]%Z [14; 15]%Z));
    (task_key 2 "val", EDataset (labelled [0]%Z [16]%Z));
    (task_key 2 "test", EDataset (labelled [0; 1]%Z [22; 23]%Z))].

(** The same store, but the last test sample of task 2 has the local label
    2, which the mapping of task 2 does not have. *)
Definition local_labels_unmapped : gmap string (@entry R) :=
  <[task_key 2 "test" := EDataset (labelled [0; 2]%Z [22; 23]%Z)]> local_labels.

(** One task (the reference task 0) with the single anchor e1; the train
    sample is the zero vector, the test sample is 2 e1. *)
Definition zero_sample : gmap string (@entry R) :=
  list_to_map [
    (task_key 0 "anchors", EDataset (table [[1; 0; 0; 0]]%R [0]%Z [100]%Z None));
    (task_key 0 "train", EDataset (table [[0; 0; 0; 0]]%R [0]%Z [1]%Z None));
    (task_key 0 "test", EDataset (table [[2; 0; 0; 0]]%R [0]%Z [2]%Z None))].

(** The file at a path is the directory of a saved table. *)
Definition is_table {F} (f : @file F) : Prop :=
  match f with
  | FTable _ => True
  | _ => False
  end.

(** A disk with the empty directory [data/partition-1]. *)
Definition partition_dir : list string := ["data"; "partition-1"].

Definition empty_dir : @disk R :=
  {| dirs := {[partition_dir]}; files := ∅ |}.

(** ** Case analysis on the modes of label reconciliation *)

Ltac case_mode H :=
  unfold label_modes in H; rewrite !elem_of_cons, elem_of_nil in H;
  destruct H as [->|[->|[->|[]]]].

(** ** What the merge stage reads, for the statements below *)

(** The store holds, for the split [mode], the tables [dss] of the tasks
    [tasks], in this order. *)
Definition holds_tables {F} (data : gmap string (@entry F)) (tasks : list nat)
  (mode : string) (dss : list (@Dataset F)) : Prop :=
  Forall2 (λ i ds, table_of data (task_key i mode) = Some ds) tasks dss.

(** The table has the column [relative_embeddings]. *)
Definition has_relative {F} (ds : @Dataset F) : Prop :=
  is_Some (ds_relative_embeddings ds).

(** Row [r] of a table: its entry in each column; in the last component,
    the entry of [relative_embeddings] when the table has the column. *)
Definition ds_row {F} (ds : @Dataset F) (r : nat)
  : option (list F) * option Z * option Z * option (list F) :=
  (ds_embedding ds !! r, ds_y ds !! r, ds_id ds !! r,
   ds_relative_embeddings ds ≫= (λ rel, rel !! r)).

(** The rows of a table, first to last. *)
Definition ds_rows {F} (ds : @Dataset F)
  : list (option (list F) * option Z * option Z * option (list F)) :=
  ds_row ds <$> seq 0 (ds_len ds).

(** ** Statements that write within a set of keys *)

(** Whatever its outcome, the statement leaves the store as it was at every
    key outside [keys]. *)
Definition writes_within {F A} (keys : string → Prop)
  (m : M (gmap string (@entry F)) A) : Prop :=
  ∀ data k, ¬ keys k → (m data).2 !! k = data !! k.

(** The keys that label reconciliation assigns to. *)
Definition relabel_keys (n : nat) (k : string) : Prop :=
  ∃ i mode, 1 ≤ i ≤ n ∧ mode ∈ ["train"; "val"; "test"] ∧ k = task_key i mode.

(** The keys that the projection assigns to. *)
Definition projection_keys (n : nat) (k : string) : Prop :=
  ∃ i mode, i ≤ n ∧ mode ∈ ["train"; "test"] ∧ k = task_key i mode.

(** The splits that label reconciliation has relabelled when it stops in the
    task [t], having finished the splits [before] of that task. *)
Definition relabelled_before (t : nat) (before : list string) (i : nat)
  (mode : string) : Prop :=
  (1 ≤ i < t ∧ mode ∈ ["train"; "val"; "test"]) ∨ (i = t ∧ mode ∈ before).

(** The directory [data/partition-1] in which a regular file has the name
    of the train split of task 1. *)
Definition blocked_dir : @disk R :=
  {| dirs := {[partition_dir]};
     files := {[path_join partition_dir (task_key 1 "train") := FEmpty]} |}.

(** ** The datamodule: one anchor split for all tasks

    The loop of [SameClassesDisjSamplesDatamodule.__init__]:
    [self.data[f"task_{task_ind}_anchors"] = self.data["anchors"]] for the
    tasks 0..num_tasks. *)
Definition share_anchors {F} (num_tasks : nat)
  : M (gmap string (@entry F)) unit :=
  for_each (range 0 (num_tasks + 1)) (λ task_ind,
    anchors <- getitem "anchors" ;;
    setitem (task_key task_ind "anchors") anchors).

(** ** Sample ids: [add_ids_to_dataset] of [io_utils]

    A table of this stage has image rows and no embedding; what the function
    reads is the number of rows and what it writes is the column [id]. *)
Record IdTable (A : Type) := {
  it_rows : list A;                (* the rows, without the column [id] *)
  it_id : option (list Z);         (* the column [id], when there is one *)
}.
Arguments it_rows {A} _.
Arguments it_id {A} _.

(** What the function can raise: the [KeyError] of [dataset[k]] or
    [indices[k]], and the [IndexError] of [indices[mode][ind]]. *)
Inductive ids_exn :=
| IdsKeyError (k : string)
| IdsIndexError (ind : nat).

(** [[ids[ind] for ind in inds]], as the map computes it row by row. *)
Fixpoint ids_at (ids : list Z) (inds : list nat) : ids_exn + list Z :=
  match inds with
  | [] => inr []
  | ind :: rest =>
      match ids !! ind with
      | None => inl (IdsIndexError ind)
      | Some i =>
          match ids_at ids rest with
          | inl e => inl e
          | inr l => inr (i :: l)
          end
      end
  end.

(** [ds.map(lambda row, ind: {"id": ids[ind]}, with_indices=True)]: the rows
    are kept and the column [id] is set, row [ind] to [ids[ind]]. *)
Definition map_with_indices {A} (ds : IdTable A) (ids : list Z)
  : ids_exn + IdTable A :=
  match ids_at ids (seq 0 (length (it_rows ds))) with
  | inl e => inl e
  | inr new_ids => inr {| it_rows := it_rows ds; it_id := Some new_ids |}
  end.

(** The loop over the modes. *)
Fixpoint add_ids_loop {A} (indices : gmap string (list Z)) (modes : list string)
  (dataset : gmap string (IdTable A)) : ids_exn + gmap string (IdTable A) :=
  match modes with
  | [] => inr dataset
  | mode :: rest =>
      match dataset !! mode with
      | None => inl (IdsKeyError mode)
      | Some ds =>
          match indices !! mode with
          | None => inl (IdsKeyError mode)
          | Some ids =>
              match map_with_indices ds ids with
              | inl e => inl e
              | inr ds' => add_ids_loop indices rest (<[mode := ds']> dataset)
              end
          end
      end
  end.

Definition add_ids_to_dataset {A} (dataset : gmap string (IdTable A))
  : ids_exn + gmap string (IdTable A) :=
  match dataset !! "train" with
  | None => inl (IdsKeyError "train")
  | Some train =>
      let N := length (it_rows train) in
      match dataset !! "test" with
      | None => inl (IdsKeyError "test")
      | Some test =>
          let M := length (it_rows test) in
          let indices : gmap string (list Z) :=
            <["test" := Z.of_nat <$> range N (N + M)]>
              (<["train" := Z.of_nat <$> range 0 N]> ∅) in
          add_ids_loop indices ["train"; "test"] dataset
      end
  end.

(** ** [get_checkpoint_callback] of [utils]

    [is_checkpoint c] is [isinstance(c, ModelCheckpoint)]; a loop that ends
    without [return] makes the function return [None]. *)
Fixpoint get_checkpoint_callback {C} (is_checkpoint : C → bool)
  (callbacks : list C) : option C :=
  match callbacks with
  | [] => None
  | callback :: rest =>
      if is_checkpoint callback then Some callback
      else get_checkpoint_callback is_checkpoint rest
  end.

(** ** [broadcast], [scatter_sum] and [scatter_mean] of [utils], on 1-D
    tensors of integers

    The tensors are 1-D and of dtype int64, and [dim] has its default -1:
    [broadcast] then adds no dimension and is [src.expand(other.size())],
    and the branch of [scatter_mean] is the one of a tensor that is not
    floating point. An element is an integer; the backend adds and divides
    modulo 2^64. *)

Inductive torch_exn :=
| ExpandError (size target : nat)   (* expand: the size does not match at a
                                       dimension that is not a singleton *)
| NegativeDimension (n : Z)         (* torch.zeros of a negative size *)
| IndexShapeError (index src : nat) (* scatter_add: index larger than src *)
| IndexOutOfBounds (i : Z) (size : nat)  (* scatter_add: index i is out of
                                            bounds for dimension 0 *)
| ZeroDivisionError.                (* integer division by zero *)

(** The value of an integer as an int64. *)
Definition wrap64 (z : Z) : Z := ((z + 2 ^ 63) mod 2 ^ 64 - 2 ^ 63)%Z.

(** [src.expand([n])] *)
Definition expand (src : list Z) (n : nat) : torch_exn + list Z :=
  if length src =? n then inr src
  else match src with
       | [x] => inr (replicate n x)
       | _ => inl (ExpandError (length src) n)
       end.

(** [broadcast(src, other, dim=-1)] *)
Definition broadcast (src other : list Z) : torch_exn + list Z :=
  expand src (length other).

(** [torch.zeros([n])] *)
Definition zeros (n : Z) : torch_exn + list Z :=
  if (n <? 0)%Z then inl (NegativeDimension n)
  else inr (replicate (Z.to_nat n) 0%Z).

(** The loop of [torch.scatter_add]: [out[index[i]] += src[i]] for each [i]. *)
Fixpoint scatter_add_loop (out index src : list Z) : torch_exn + list Z :=
  match index, src with
  | i :: index', s :: src' =>
      if ((0 <=? i) && (i <? Z.of_nat (length out)))%Z
      then scatter_add_loop
             (alter (λ v, wrap64 (v + s)) (Z.to_nat i) out) index' src'
      else inl (IndexOutOfBounds i (length out))
  | _, _ => inr out
  end.

(** [torch.scatter_add(input, 0, index, src)]: a new tensor. *)
Definition scatter_add (input index src : list Z) : torch_exn + list Z :=
  if length index <=? length src then scatter_add_loop input index src
  else inl (IndexShapeError (length index) (length src)).

(** [int(index.max())] of a tensor that is not empty. *)
Definition tensor_max (t : list Z) : Z :=
  match t with
  | [] => 0%Z
  | x :: t' => foldr Z.max x t'
  end.

Definition scatter_sum (src index : list Z) (out : option (list Z))
  (dim_size : option Z) : torch_exn + list Z :=
  match broadcast index src with
  | inl e => inl e
  | inr index =>
      match out with
      | None =>
          let size :=
            match dim_size with
            | Some dim_size => dim_size
            | None => if length index =? 0 then 0%Z
                      else (tensor_max index + 1)%Z
            end in
          match zeros size with
          | inl e => inl e
          | inr out => scatter_add out index src
          end
      | Some out => scatter_add out index src
      end
  end.

(** [torch.div(a, b, rounding_mode="floor")] on tensors of one size. *)
Definition floor_div (a b : list Z) : torch_exn + list Z :=
  if length a =? length b then
    if forallb (λ x, negb (x =? 0)%Z) b
    then inr (zip_with (λ x y, wrap64 (x / y)) a b)
    else inl ZeroDivisionError
  else inl (ExpandError (length b) (length a)).

Definition scatter_mean (src index : list Z) (out : option (list Z))
  (dim_size : option Z) : torch_exn + list Z :=
  match scatter_sum src index out dim_size with
  | inl e => inl e
  | inr out =>
      let dim_size := Z.of_nat (length out) in
      let ones := replicate (length index) 1%Z in
      match scatter_sum ones index None (Some dim_size) with
      | inl e => inl e
      | inr count =>
          let count := map (λ c, if (c <? 1)%Z then 1%Z else c) count in
          match broadcast count out with
          | inl e => inl e
          | inr count =>
              match floor_div out count with
              | inl e => inl e
              | inr _ => inr out      (* the quotient is dropped *)
              end
          end
      end
  end.

(** The sum of the entries of [src] that [index] sends to the bucket [j]. *)
Definition bucket_sum (index src : list Z) (j : nat) : Z :=
  foldr Z.add 0%Z
    ((λ p, if (p.1 =? Z.of_nat j)%Z then p.2 else 0%Z) <$> zip index src).

(** The sum of the entries of a tensor, as an integer. *)
Definition tensor_sum (t : list Z) : Z := foldr Z.add 0%Z t.

(** The integer is the value of an int64. *)
Definition is_int64 (z : Z) : Prop := (- 2 ^ 63 ≤ z < 2 ^ 63)%Z.

(** ** The binary32 numbers of IEEE 754 as scalars

    The tensors of the pipeline are float32 tensors. The kernels over the
    binary32 numbers, every operation rounded to the nearest number, ties
    to even; a sum runs from the first entry to the last. *)

Definition f32_add : spec_float → spec_float → spec_float := SFadd 24 128.
Definition f32_mul : spec_float → spec_float → spec_float := SFmul 24 128.
Definition f32_div : spec_float → spec_float → spec_float := SFdiv 24 128.
Definition f32_sqrt : spec_float → spec_float := SFsqrt 24 128.

(** The binary32 number nearest to an integer. *)
Definition f32_of_Z (z : Z) : spec_float := binary_normalize 24 128 z 0 false.

Definition f32_dot (u v : list spec_float) : spec_float :=
  foldl f32_add (S754_zero false) (zip_with f32_mul u v).

Global Instance f32_ops : TensorOps spec_float := {|
  vector_norm v := f32_sqrt (f32_dot v v);
  clamp_min x m := if SFltb x m then m else x;
  fdiv := f32_div;
  dot := f32_dot;
  eps := S754_finite false 9223372 (-63);  (* the binary32 number nearest to 1e-12 *)
|}.

(** One task (the reference task 0) over binary32 with the single anchor
    (3, 3); the train sample is the zero vector and the test sample is the
    anchor itself. *)
Definition diagonal_f32 : gmap string (@entry spec_float) :=
  list_to_map [
    (task_key 0 "anchors",
     EDataset {| ds_embedding := [[f32_of_Z 3; f32_of_Z 3]];
                 ds_y := [0%Z]; ds_id := [100%Z];
                 ds_relative_embeddings := None |});
    (task_key 0 "train",
     EDataset {| ds_embedding := [[f32_of_Z 0; f32_of_Z 0]];
                 ds_y := [0%Z]; ds_id := [1%Z];
                 ds_relative_embeddings := None |});
    (task_key 0 "test",
     EDataset {| ds_embedding := [[f32_of_Z 3; f32_of_Z 3]];
                 ds_y := [0%Z]; ds_id := [2%Z];
                 ds_relative_embeddings := None |})].


(** The directory [data/partition-1] as a save leaves it: the metadata in
    [metadata.json], one split listed in [dataset_dict.json], and its
    table. *)
Definition saved_partition : @disk R :=
  {| dirs := {[partition_dir]};
     files :=
       <[path_join partition_dir "metadata.json" := FJsonMetadata two_task_metadata]>
       (<[path_join partition_dir "dataset_dict.json" := FJsonSplits ["train"]]>
       (<[path_join partition_dir "train" := FTable (labelled [0; 1]%Z [10; 11]%Z)]>
        ∅)) |}.

(** * Properties *)

(** ** Store keys are injective *)

Lemma underscore_not_digit : ¬ is_digit "_"%char.
Proof.
  unfold is_digit. rewrite !elem_of_cons, elem_of_nil.
  intros H. repeat (destruct H as [H|H]; [discriminate H|]). exact H.
Qed.

Lemma pretty_N_char_digit x : is_digit (pretty_N_char x).
Proof.
  unfold is_digit, pretty_N_char.
  rewrite !elem_of_cons. repeat case_match; tauto.
Qed.

Lemma pretty_N_go_digits x s : all_digits s → all_digits (pretty_N_go x s).
Proof.
  revert s. induction (N.lt_wf_0 x) as [x _ IH]; intros s Hs.
  destruct (decide (x = 0)%N) as [->|Hx].
  - by rewrite pretty_N_go_0.
  - rewrite pretty_N_go_step by lia.
    apply IH; [apply N.div_lt; lia|].
    split; [apply pretty_N_char_digit | done].
Qed.

Lemma pretty_nat_digits (n : nat) : all_digits (pretty n).
Proof.
  unfold pretty, pretty_nat, pretty, pretty_N.
  case_decide.
  - simpl. split; [|done]. unfold is_digit. apply elem_of_cons. by left.
  - by apply pretty_N_go_digits.
Qed.

Lemma digits_underscore_inj u v s t :
  all_digits u → all_digits v →
  u +:+ "_" +:+ s = v +:+ "_" +:+ t → u = v ∧ s = t.
Proof.
  revert v. induction u as [|c u IH]; intros [|d v] Hu Hv Heq; simpl in *.
  - by simplify_eq.
  - simplify_eq. destruct Hv as [Hd _]. by apply underscore_not_digit in Hd.
  - simplify_eq. destruct Hu as [Hd _]. by apply underscore_not_digit in Hd.
  - injection Heq as -> Heq. destruct Hu as [_ Hu], Hv as [_ Hv].
    destruct (IH v Hu Hv Heq) as [-> ->]. done.
Qed.

Lemma task_key_inj i j m m' : task_key i m = task_key j m' → i = j ∧ m = m'.
Proof.
  unfold task_key. intros Heq. simpl in Heq. simplify_eq.
  apply digits_underscore_inj in Heq as [Hp ->]; auto using pretty_nat_digits.
  split; [|done]. by apply (inj pretty).
Qed.

Lemma task_key_ne_metadata i m : task_key i m ≠ "metadata".
Proof. unfold task_key. simpl. discriminate. Qed.

(** ** Loops and statements that only read *)

Section Monad.

Context {S : Type}.

Lemma readonly_ret {A} (a : A) : readonly (@ret S A a).
Proof. by intros s. Qed.

Lemma readonly_raise {A} e : readonly (@raise S A e).
Proof. by intros s. Qed.

Lemma readonly_lift {A} (r : exn + A) : readonly (@lift S A r).
Proof. destruct r; by intros s. Qed.

Lemma readonly_assert c : readonly (@py_assert S c).
Proof. destruct c; by intros s. Qed.

Lemma readonly_bind {A B} (m : M S A) (k : A → M S B) :
  readonly m → (∀ a, readonly (k a)) → readonly (bind m k).
Proof.
  intros Hm Hk s. unfold bind. specialize (Hm s).
  destruct (m s) as [[e|a] s']; simpl in *; subst; [done|apply Hk].
Qed.

Lemma readonly_for_each {A} (xs : list A) (body : A → M S unit) :
  (∀ x, readonly (body x)) → readonly (for_each xs body).
Proof.
  intros Hb. induction xs as [|x xs IH]; simpl.
  - apply readonly_ret.
  - apply readonly_bind; auto.
Qed.

Lemma bind_readonly_fst {A B} (m : M S A) (k : A → M S B) s :
  readonly m →
  (bind m k s).1 = match (m s).1 with
                   | inl e => inl e
                   | inr a => (k a s).1
                   end.
Proof.
  intros Hm. unfold bind. specialize (Hm s).
  destruct (m s) as [[e|a] s']; simpl in *; by subst.
Qed.

Lemma bind_inr_inv {A B} (m : M S A) (k : A → M S B) s b s2 :
  bind m k s = (inr b, s2) → ∃ a s1, m s = (inr a, s1) ∧ k a s1 = (inr b, s2).
Proof.
  unfold bind. destruct (m s) as [[e|a] s1]; [done|]. intros Hk. by exists a, s1.
Qed.

(** A loop of read-only statements returns iff each of them does. *)
Lemma for_each_readonly_ok {A} (xs : list A) (body : A → M S unit) s :
  (∀ x, readonly (body x)) →
  (for_each xs body s).1 = inr () ↔ ∀ x, x ∈ xs → (body x s).1 = inr ().
Proof.
  intros Hb. induction xs as [|x xs IH]; simpl.
  - split; [|done]. intros _ x Hx. by apply elem_of_nil in Hx.
  - rewrite bind_readonly_fst by auto. split.
    + intros Hrun y Hy. destruct (body x s).1 as [e|[]] eqn:Hx; [done|].
      apply elem_of_cons in Hy as [->|Hy]; [done|]. by apply IH.
    + intros Hall. rewrite (Hall x) by (apply elem_of_cons; by left).
      apply IH. intros y Hy. apply Hall, elem_of_cons. by right.
Qed.

(** The exception of such a loop is the exception of one of its rounds. *)
Lemma for_each_readonly_err {A} (xs : list A) (body : A → M S unit) s e :
  (∀ x, readonly (body x)) →
  (for_each xs body s).1 = inl e → ∃ x, x ∈ xs ∧ (body x s).1 = inl e.
Proof.
  intros Hb. induction xs as [|x xs IH]; simpl; [done|].
  rewrite bind_readonly_fst by auto.
  destruct (body x s).1 as [e'|[]] eqn:Hx.
  - intros [= ->]. exists x. split; [apply elem_of_cons; by left|done].
  - intros Hrun. destruct (IH Hrun) as (y & Hy & Hey).
    exists y. split; [apply elem_of_cons; by right|done].
Qed.

End Monad.

Lemma elem_of_range a b x : x ∈ range a b ↔ a ≤ x < b.
Proof. unfold range. rewrite elem_of_seq. lia. Qed.

(** ** Comparison of id columns *)

Lemma torch_all_zip_eqb (a b : list Z) :
  length a = length b → torch_all (zip_with Z.eqb a b) = true ↔ a = b.
Proof.
  revert b. induction a as [|x a IH]; intros [|y b] Hlen; simpl in *; try done.
  injection Hlen as Hlen. rewrite andb_true_iff, Z.eqb_eq, (IH b Hlen).
  split; [intros [-> ->]; done | intros [= -> ->]; done].
Qed.

Lemma assert_all_eq_refl a : assert_all_eq a a = inr ().
Proof.
  unfold assert_all_eq, torch_eq. rewrite Nat.eqb_refl.
  by rewrite (proj2 (torch_all_zip_eqb a a eq_refl) eq_refl).
Qed.

Lemma torch_eq_same_length a b :
  length a = length b → torch_eq a b = inr (zip_with Z.eqb a b).
Proof. intros Hlen. unfold torch_eq. by rewrite Hlen, Nat.eqb_refl. Qed.

Lemma torch_eq_size_error a b :
  length a ≠ length b → length a ≠ 1 → length b ≠ 1 →
  torch_eq a b = inl (RuntimeError_size (length a) (length b)).
Proof.
  intros Hne Ha Hb. unfold torch_eq.
  destruct (Nat.eqb_spec (length a) (length b)) as [|_]; [done|].
  destruct a as [|x [|x' a]], b as [|y [|y' b]]; simpl in *; done.
Qed.

(** Without broadcasting the assertion passes exactly on equal columns, fails
    bare on columns of one size, and is pre-empted by a size error of the
    backend on columns of two sizes. *)
Lemma assert_all_eq_cases a b :
  ¬ broadcasts a b →
  (a = b ∧ assert_all_eq a b = inr ()) ∨
  (a ≠ b ∧ length a = length b ∧ assert_all_eq a b = inl AssertionError) ∨
  (length a ≠ length b ∧
   assert_all_eq a b = inl (RuntimeError_size (length a) (length b))).
Proof.
  intros Hnb. destruct (decide (length a = length b)) as [Hlen|Hlen].
  - unfold assert_all_eq. rewrite torch_eq_same_length by done.
    destruct (torch_all (zip_with Z.eqb a b)) eqn:Hall.
    + left. split; [by apply torch_all_zip_eqb|done].
    + right; left. split_and!; [|done..].
      intros Heq. apply torch_all_zip_eqb in Heq; [congruence|done].
  - right; right. split; [done|]. unfold assert_all_eq.
    rewrite torch_eq_size_error; [done..| |]; intros H1; apply Hnb;
      split; auto.
Qed.

(** ** Anchor consistency check *)

Section Anchors.

Context {F : Type}.
Implicit Types data : gmap string (@entry F).

Lemma ids_of_Some data k a :
  ids_of data k = Some a → ∃ ds, data !! k = Some (EDataset ds) ∧ ds_id ds = a.
Proof.
  unfold ids_of. destruct (data !! k) as [[ds|md]|]; [|done..].
  intros [= <-]. by exists ds.
Qed.

Lemma table_of_Some data k ds :
  table_of data k = Some ds ↔ data !! k = Some (EDataset ds).
Proof.
  unfold table_of. destruct (data !! k) as [[ds'|md]|];
    split; intros Heq; by simplify_eq.
Qed.

Lemma readonly_getitem k : readonly (@getitem F k).
Proof. intros data. unfold getitem. by destruct (data !! k). Qed.

Lemma readonly_get_dataset k : readonly (@get_dataset F k).
Proof.
  apply readonly_bind; [apply readonly_getitem|].
  intros [ds|md]; [apply readonly_ret|apply readonly_raise].
Qed.

Lemma get_dataset_run data k ds :
  data !! k = Some (EDataset ds) → get_dataset k data = (inr ds, data).
Proof. intros Hk. unfold get_dataset, bind, getitem. by rewrite Hk. Qed.

Lemma readonly_anchor_pair i j : readonly (@anchor_pair F i j).
Proof.
  repeat (apply readonly_bind; [first [apply readonly_get_dataset
    | apply readonly_lift]|intros ?]).
  apply readonly_assert.
Qed.

Lemma anchor_pair_run data i j a b :
  ids_of data (task_key i "anchors") = Some a →
  ids_of data (task_key j "anchors") = Some b →
  (anchor_pair i j data).1 = assert_all_eq a b.
Proof.
  intros (dsa & Ha & <-)%ids_of_Some (dsb & Hb & <-)%ids_of_Some.
  unfold anchor_pair, bind. rewrite (get_dataset_run _ _ _ Ha).
  rewrite (get_dataset_run _ _ _ Hb). unfold assert_all_eq.
  destruct (torch_eq (ds_id dsa) (ds_id dsb)) as [e|same]; simpl; [done|].
  by destruct (torch_all same).
Qed.

Lemma check_same_anchor_ids_readonly n : readonly (@check_same_anchor_ids F n).
Proof.
  apply readonly_for_each. intros i. apply readonly_for_each. intros j.
  apply readonly_anchor_pair.
Qed.

(** C3 (amended): when the anchor split of every task 0..num_tasks is in the
    store and no two of them have sizes that the backend broadcasts, the check
    returns iff all the anchor id sequences are equal, element for element in
    order; and an exception it raises comes from a pair i ≤ j of differing
    sequences: a bare assertion failure when they have one length, the
    backend's size error naming the two lengths when they have not. *)
Theorem check_same_anchor_ids_spec data (n : nat) (ids : nat → list Z) :
  (∀ i, i ≤ n → ids_of data (task_key i "anchors") = Some (ids i)) →
  (∀ i j, i ≤ n → j ≤ n → ¬ broadcasts (ids i) (ids j)) →
  ((check_same_anchor_ids n data).1 = inr () ↔
     ∀ i j, i ≤ n → j ≤ n → ids i = ids j) ∧
  (∀ e, (check_same_anchor_ids n data).1 = inl e →
     ∃ i j, i ≤ j ≤ n ∧ ids i ≠ ids j ∧
       ((length (ids i) = length (ids j) ∧ e = AssertionError) ∨
        (length (ids i) ≠ length (ids j) ∧
         e = RuntimeError_size (length (ids i)) (length (ids j))))).
Proof.
  intros Hkeys Hnb.
  change (check_same_anchor_ids n data) with
    (for_each (range 0 (n + 1))
       (λ i, for_each (range i (n + 1)) (anchor_pair i)) data).
  pose proof (λ i, readonly_for_each (S:=gmap string (@entry F))
    (range i (n + 1)) (anchor_pair i) (readonly_anchor_pair i)) as Hinner.
  split.
  - rewrite for_each_readonly_ok by done. split.
    + intros Hall.
      assert (∀ i j, i ≤ j → j ≤ n → ids i = ids j) as Hle.
      { intros i j Hij Hj.
        specialize (Hall i (proj2 (elem_of_range 0 (n + 1) i) ltac:(lia))).
        rewrite for_each_readonly_ok in Hall by apply readonly_anchor_pair.
        specialize (Hall j (proj2 (elem_of_range i (n + 1) j) ltac:(lia))).
        rewrite (anchor_pair_run data i j (ids i) (ids j)) in Hall
          by (apply Hkeys; lia).
        destruct (assert_all_eq_cases (ids i) (ids j)) as [[? _]|[(_&_&He)|[_ He]]];
          [apply Hnb; lia|done|congruence..]. }
      intros i j Hi Hj. destruct (decide (i ≤ j)).
      * by apply Hle.
      * symmetry. apply Hle; lia.
    + intros Heq i Hi%elem_of_range.
      apply for_each_readonly_ok; [apply readonly_anchor_pair|].
      intros j Hj%elem_of_range.
      rewrite (anchor_pair_run data i j (ids i) (ids j)) by (apply Hkeys; lia).
      rewrite (Heq i j) by lia. apply assert_all_eq_refl.
  - intros e Herr.
    apply for_each_readonly_err in Herr as (i & Hi%elem_of_range & Herr);
      [|done].
    apply for_each_readonly_err in Herr as (j & Hj%elem_of_range & Herr);
      [|apply readonly_anchor_pair].
    rewrite (anchor_pair_run data i j (ids i) (ids j)) in Herr
      by (apply Hkeys; lia).
    exists i, j. split; [lia|].
    destruct (assert_all_eq_cases (ids i) (ids j))
      as [[_ He]|[(Hne&Hlen&He)|[Hlen He]]]; [apply Hnb; lia|congruence|..].
    + split; [done|]. left. split; [done|congruence].
    + split; [congruence|]. right. split; [done|congruence].
Qed.

End Anchors.

Lemma check_same_anchor_ids_spec_witness :
  (check_same_anchor_ids 2 anchors_agree).1 = inr ().
Proof.
  refine (proj2 (proj1 (check_same_anchor_ids_spec anchors_agree 2
    (λ _, [100; 101; 102]%Z) _ _)) _).
  - intros i Hi. destruct i as [|[|[|i]]]; [vm_compute; reflexivity..|lia].
  - intros i j _ _ [Hlen _]. apply Hlen. reflexivity.
  - reflexivity.
Defined.

(** C3 (as stated) fails: the exception of the check is a bare assertion
    failure, the same whether the anchors first differ at index 0 or at
    index 2, so no reading of it names the first differing index. *)
Lemma check_same_anchor_ids_error_names_no_index :
  (check_same_anchor_ids 1 anchors_differ_at_0).1 = inl AssertionError ∧
  (check_same_anchor_ids 1 anchors_differ_at_2).1 = inl AssertionError ∧
  first_mismatch [100; 101; 102]%Z [999; 101; 102]%Z = Some (DiffersAt 0) ∧
  first_mismatch [100; 101; 102]%Z [100; 101; 999]%Z = Some (DiffersAt 2) ∧
  ¬ ∃ describe, anchor_error_identifies describe.
Proof.
  assert ((check_same_anchor_ids 1 anchors_differ_at_0).1 = inl AssertionError)
    as H0 by (vm_compute; reflexivity).
  assert ((check_same_anchor_ids 1 anchors_differ_at_2).1 = inl AssertionError)
    as H2 by (vm_compute; reflexivity).
  split_and!; [done..|].
  intros [describe Hd].
  pose proof (Hd anchors_differ_at_0 [100; 101; 102]%Z [999; 101; 102]%Z
    AssertionError eq_refl eq_refl H0) as Ha.
  pose proof (Hd anchors_differ_at_2 [100; 101; 102]%Z [100; 101; 999]%Z
    AssertionError eq_refl eq_refl H2) as Hb.
  simpl in Ha, Hb. congruence.
Qed.

(** ** Merge and alignment check *)

Section Merge.

Context {F : Type}.
Implicit Types data : gmap string (@entry F).

Lemma get_dataset_insert_ne data k k' v :
  k ≠ k' → (get_dataset k (<[k' := v]> data)).1 = (get_dataset k data).1.
Proof.
  intros Hne. unfold get_dataset, bind, getitem.
  rewrite lookup_insert_ne by done.
  by destruct (data !! k) as [[ds|md]|].
Qed.

Lemma get_dataset_insert_eq data k ds :
  (get_dataset k (<[k := EDataset ds]> data)).1 = inr ds.
Proof. unfold get_dataset, bind, getitem. by rewrite lookup_insert_eq. Qed.

Lemma readonly_collect tasks mode : readonly (@collect F tasks mode).
Proof.
  induction tasks as [|i tasks IH]; simpl; [apply readonly_ret|].
  apply readonly_bind; [apply readonly_get_dataset|intros ds].
  apply readonly_bind; [done|intros dss]. apply readonly_ret.
Qed.

(** The tables gathered for a split only depend on the entries gathered. *)
Lemma collect_insert_ne data tasks mode k v :
  (∀ i, i ∈ tasks → task_key i mode ≠ k) →
  (collect tasks mode (<[k := v]> data)).1 = (collect tasks mode data).1.
Proof.
  induction tasks as [|i tasks IH]; intros Hne; simpl; [done|].
  rewrite !bind_readonly_fst by apply readonly_get_dataset.
  rewrite get_dataset_insert_ne by (apply Hne, elem_of_cons; by left).
  destruct (get_dataset (task_key i mode) data).1 as [e|ds]; [done|].
  rewrite !bind_readonly_fst by apply readonly_collect.
  rewrite IH; [done|]. intros j Hj. apply Hne, elem_of_cons. by right.
Qed.

Lemma merge_stage_outcome data n :
  (merge_stage n data).1 =
  merge_outcome (collect (range 1 (n + 1)) "train" data).1
                (collect (range 1 (n + 1)) "test" data).1
                (get_dataset (task_key 0 "train") data).1
                (get_dataset (task_key 0 "test") data).1.
Proof.
  unfold merge_stage, merge_outcome.
  rewrite bind_readonly_fst by apply readonly_collect.
  destruct (collect _ "train" data).1 as [e|trains]; [done|].
  rewrite bind_readonly_fst by apply readonly_lift.
  destruct (concatenate_datasets trains) as [e|merged_train]; [done|]. simpl.
  rewrite bind_readonly_fst by apply readonly_collect.
  destruct (collect _ "test" data).1 as [e|tests]; [done|].
  rewrite bind_readonly_fst by apply readonly_lift.
  destruct (concatenate_datasets tests) as [e|merged_test]; [done|]. simpl.
  rewrite bind_readonly_fst by apply readonly_get_dataset.
  destruct (get_dataset (task_key 0 "train") data).1 as [e|ot]; [done|].
  rewrite bind_readonly_fst by apply readonly_get_dataset.
  destruct (get_dataset (task_key 0 "test") data).1 as [e|otest]; [done|].
  rewrite bind_readonly_fst by apply readonly_lift.
  unfold assert_all_eq.
  destruct (torch_eq _ _) as [e|same]; [done|]. simpl.
  rewrite bind_readonly_fst by apply readonly_assert.
  by destruct (torch_all same).
Qed.

Lemma merge_stage_readonly n : readonly (@merge_stage F n).
Proof.
  unfold merge_stage.
  repeat (apply readonly_bind; [first [apply readonly_collect
    | apply readonly_lift | apply readonly_get_dataset
    | apply readonly_assert]|intros ?]).
  apply readonly_ret.
Qed.

End Merge.

(** ** Sorting by id *)

Global Instance le_by_id_total : Total le_by_id.
Proof. intros p q. unfold le_by_id. lia. Qed.

Lemma take_rows_fst_snd {A} (col : list A) (l : list (nat * A)) :
  Forall (λ p, col !! p.1 = Some p.2) l → take_rows l.*1 col = l.*2.
Proof.
  unfold take_rows. induction 1 as [|[i x] l Hp _ IH]; [done|].
  csimpl in *. rewrite Hp. csimpl. by f_equal.
Qed.

Lemma zip_seq_lookup {A} (col : list A) :
  Forall (λ p, col !! p.1 = Some p.2) (zip (seq 0 (length col)) col).
Proof.
  apply Forall_lookup. intros i [j x] Hi.
  apply lookup_zip_with_Some in Hi as (j' & x' & [= -> ->] & Hj & Hx).
  apply lookup_seq in Hj as [-> _]. done.
Qed.

(** The id column of a sorted table: the ids in ascending order. *)
Lemma sort_by_id_ids {F} (ds : @Dataset F) :
  ds_id (sort_by_id ds) =
  (merge_sort le_by_id (zip (seq 0 (length (ds_id ds))) (ds_id ds))).*2.
Proof.
  unfold sort_by_id, argsort. simpl. apply take_rows_fst_snd.
  rewrite merge_sort_Permutation. apply zip_seq_lookup.
Qed.

Lemma sort_by_id_sorted {F} (ds : @Dataset F) :
  Sorted Z.le (ds_id (sort_by_id ds)).
Proof.
  rewrite sort_by_id_ids.
  apply (Sorted_fmap _ le_by_id); [by intros [] []|].
  apply (Sorted_merge_sort le_by_id).
Qed.

Lemma sort_by_id_perm {F} (ds : @Dataset F) :
  ds_id (sort_by_id ds) ≡ₚ ds_id ds.
Proof.
  rewrite sort_by_id_ids, merge_sort_Permutation.
  rewrite snd_zip; [done|]. by rewrite length_seq.
Qed.

(** Concatenation appends the id columns. *)
Lemma concatenate_from_ids {F} (dsets : list (@Dataset F)) acc merged :
  concatenate_from acc dsets = inr merged →
  ds_id merged = (ds_id acc ++ concat (ds_id <$> dsets))%list.
Proof.
  revert acc. induction dsets as [|ds dsets IH]; intros acc; simpl.
  - intros [= ->]. by rewrite app_nil_r.
  - destruct (append_datasets acc ds) as [e|acc'] eqn:Happ; [done|].
    intros Hrest. rewrite (IH _ Hrest), app_assoc. f_equal.
    unfold append_datasets in Happ.
    destruct (ds_relative_embeddings acc), (ds_relative_embeddings ds);
      by simplify_eq.
Qed.

Lemma concatenate_datasets_ids {F} (dsets : list (@Dataset F)) merged :
  concatenate_datasets dsets = inr merged →
  ds_id merged = concat (ds_id <$> dsets).
Proof.
  destruct dsets as [|ds dsets]; [done|]. simpl.
  apply concatenate_from_ids.
Qed.

Section MergeTrain.

Context {F : Type}.
Implicit Types data : gmap string (@entry F).

Lemma merge_stage_reference_train data n ref :
  (merge_stage n (<[task_key 0 "train" := EDataset ref]> data)).1 =
  merge_outcome (collect (range 1 (n + 1)) "train" data).1
                (collect (range 1 (n + 1)) "test" data).1
                (inr ref)
                (get_dataset (task_key 0 "test") data).1.
Proof.
  rewrite merge_stage_outcome. f_equal.
  - apply collect_insert_ne. intros i Hi%elem_of_range Heq.
    apply task_key_inj in Heq as [-> _]. lia.
  - apply collect_insert_ne. intros i _ Heq.
    by apply task_key_inj in Heq as [_ ?].
  - apply get_dataset_insert_eq.
  - apply get_dataset_insert_ne. intros Heq.
    by apply task_key_inj in Heq as [_ ?].
Qed.

(** C9: the merged train set is the concatenation of the train splits of the
    tasks 1..num_tasks, sorted by id, and the reference train set of task 0
    is only sorted: whatever table [ref] is stored as the reference train
    set, the stage raises the same exception or returns the same merged
    sets, so no exception of the stage comes from comparing the merged train
    ids with the reference train ids. *)
Theorem merge_train_is_not_checked data (n : nat) (ref ref' : @Dataset F) :
  let run r := (merge_stage n (<[task_key 0 "train" := EDataset r]> data)).1 in
  (∀ e, run ref = inl e → run ref' = inl e) ∧
  (∀ m, run ref = inr m →
     (∃ trains merged,
        (collect (range 1 (n + 1)) "train" data).1 = inr trains ∧
        concatenate_datasets trains = inr merged ∧
        merged_dataset_train m = sort_by_id merged ∧
        Sorted Z.le (ds_id (merged_dataset_train m)) ∧
        ds_id (merged_dataset_train m) ≡ₚ concat (ds_id <$> trains)) ∧
     original_dataset_train m = sort_by_id ref ∧
     ∃ m', run ref' = inr m' ∧
           original_dataset_train m' = sort_by_id ref' ∧
           merged_dataset_train m' = merged_dataset_train m ∧
           merged_dataset_test m' = merged_dataset_test m ∧
           original_dataset_test m' = original_dataset_test m).
Proof.
  intros run. unfold run. rewrite !merge_stage_reference_train.
  unfold merge_outcome.
  destruct (collect _ "train" data).1 as [e|trains]; [by split|].
  destruct (concatenate_datasets trains) as [e|merged] eqn:Hcat; [by split|].
  destruct (collect _ "test" data).1 as [e|tests]; [by split|].
  destruct (concatenate_datasets tests) as [e|merged_test]; [by split|].
  destruct (get_dataset _ data).1 as [e|original_test]; [by split|].
  destruct (assert_all_eq _ _) as [e|[]]; [by split|].
  split; [done|]. intros m [= <-].
  cbn [merged_dataset_train original_dataset_train merged_dataset_test
       original_dataset_test]. split_and!.
  - exists trains, merged. split_and!; [done..|apply sort_by_id_sorted|].
    rewrite sort_by_id_perm. by rewrite (concatenate_datasets_ids _ _ Hcat).
  - done.
  - eexists. split; [done|]. done.
Qed.

End MergeTrain.

(** The merged train ids 10, 11 differ from the reference train ids, which
    include the anchors; the stage returns all the same. *)
Lemma merge_scenario_returns :
  ∃ m, (merge_stage 2 merge_scenario).1 = inr m ∧
       ds_id (merged_dataset_train m) = [10; 11]%Z ∧
       ds_id (original_dataset_train m) = [10; 11; 100; 101; 102]%Z ∧
       ds_id (merged_dataset_test m) = [1; 2; 3; 4]%Z ∧
       ds_id (original_dataset_test m) = [1; 2; 3; 4]%Z.
Proof. eexists. split; [vm_compute; reflexivity|]. by vm_compute. Qed.

(** C2 (failing input): task 1 and task 2 both hold the test sample 5 of the
    reference test set. The merged id sequence [5; 5] and the reference id
    sequence [5] differ in length; the comparison broadcasts the single
    reference id, the assertion passes and the stage returns. *)
Theorem merge_accepts_duplicated_test_sample :
  ∃ m, (merge_stage 2 test_sample_duplicated).1 = inr m ∧
       ds_id (merged_dataset_test m) = [5; 5]%Z ∧
       ds_id (original_dataset_test m) = [5]%Z.
Proof. eexists. split; [vm_compute; reflexivity|]. by vm_compute. Qed.

(** ** Loops that change the state *)

(** An invariant [P], indexed by the rounds done, holds when the loop
    returns; [Q] holds of the exception of a round that raises. *)
Lemma for_each_inv {S A} (P : list A → S → Prop) (Q : exn → Prop)
    (body : A → M S unit) (xs : list A) (s : S) :
  P [] s →
  (∀ done x rest s, xs = (done ++ x :: rest)%list → P done s →
     match body x s with
     | (inr _, s') => P (done ++ [x])%list s'
     | (inl e, _) => Q e
     end) →
  match for_each xs body s with
  | (inr _, s') => P xs s'
  | (inl e, _) => Q e
  end.
Proof.
  intros Hstart Hstep.
  cut (∀ rest done s, xs = (done ++ rest)%list → P done s →
         match for_each rest body s with
         | (inr _, s') => P xs s'
         | (inl e, _) => Q e
         end).
  { intros Hgen. by apply (Hgen xs []). }
  clear s Hstart. induction rest as [|x rest IH]; intros done s Hxs HP; simpl.
  - rewrite app_nil_r in Hxs. by subst.
  - unfold bind. specialize (Hstep done x rest s Hxs HP).
    destruct (body x s) as [[e|[]] s']; [done|].
    apply (IH (done ++ [x])%list); [|done]. by rewrite <-app_assoc.
Qed.

Lemma split_fresh {A} (xs done rest : list A) x :
  NoDup xs → xs = (done ++ x :: rest)%list → x ∈ xs ∧ x ∉ done.
Proof.
  intros Hnd ->. split.
  - apply elem_of_app. right. apply elem_of_cons. by left.
  - apply NoDup_app in Hnd as (_ & Hnd & _). intros Hin.
    apply (Hnd x Hin), elem_of_cons. by left.
Qed.

Lemma elem_of_snoc {A} (done : list A) x y :
  x ∈ (done ++ [y])%list ↔ x ∈ done ∨ x = y.
Proof. by rewrite elem_of_app, list_elem_of_singleton. Qed.

(** ** Label reconciliation *)

Section Labels.

Context {F : Type}.
Variable py_int : string → option Z.
Implicit Types data : gmap string (@entry F).
Implicit Types m : gmap Z Z.

Lemma try_map_inr {A B} (f : A → exn + B) l bs :
  try_map f l = inr bs ↔ Forall2 (λ a b, f a = inr b) l bs.
Proof.
  revert bs. induction l as [|a l IH]; intros bs; simpl.
  - split; [intros [= <-]; constructor|by inversion 1].
  - destruct (f a) as [e|b] eqn:Hfa.
    + split; [done|]. inversion 1; congruence.
    + destruct (try_map f l) as [e|bs'] eqn:Hl.
      * split; [done|]. inversion 1 as [|???? _ Hrest]; subst.
        by apply IH in Hrest.
      * split.
        -- intros [= <-]. constructor; [done|by apply IH].
        -- inversion 1 as [|???? Hb Hrest]; subst.
           apply IH in Hrest. congruence.
Qed.

Lemma try_map_inl {A B} (f : A → exn + B) l e :
  try_map f l = inl e → ∃ a, a ∈ l ∧ f a = inl e.
Proof.
  induction l as [|a l IH]; simpl; [done|].
  destruct (f a) as [e'|b] eqn:Hfa.
  - intros [= ->]. exists a. split; [apply elem_of_cons; by left|done].
  - destruct (try_map f l) as [e'|bs]; [|done].
    intros [= ->]. destruct (IH eq_refl) as (a' & Ha' & He).
    exists a'. split; [apply elem_of_cons; by right|done].
Qed.

(** A table is relabelled exactly when each of its labels is a key of the
    inverted map; the result has the labels replaced, row by row. *)
Lemma map_labels_inr m (ds ds' : @Dataset F) :
  map_labels m ds = inr ds' ↔ relabeled m ds ds'.
Proof.
  unfold map_labels, relabeled.
  destruct (try_map (lookup_label m) (ds_y ds)) as [e|ys] eqn:Hys.
  - split; [done|]. intros (_ & _ & _ & Hall).
    assert (try_map (lookup_label m) (ds_y ds) = inr (ds_y ds')) as Hok;
      [|congruence].
    apply try_map_inr. eapply Forall2_impl; [done|].
    intros l g Hl. unfold lookup_label. by rewrite Hl.
  - apply try_map_inr in Hys. split.
    + intros [= <-]. simpl. split_and!; [done..|].
      eapply Forall2_impl; [done|]. intros l g. unfold lookup_label.
      destruct (m !! l); [|done]. by intros [= ->].
    + intros (He & Hi & Hr & Hall).
      destruct ds' as [emb' ys' ids' rel']; simpl in *. subst.
      do 2 f_equal. apply list_eq_Forall2. revert ys' Hall.
      induction Hys as [|l g ls gs Hl _ IH]; intros ys2 Hall;
        inversion Hall as [|? g' ? gs' Hl' Hrest]; subst; constructor.
      * unfold lookup_label in Hl. rewrite Hl' in Hl. congruence.
      * by apply IH.
Qed.

(** The exception of relabelling is the [KeyError] of a label of the table
    that the inverted map has no key for. *)
Lemma map_labels_inl m (ds : @Dataset F) e :
  map_labels m ds = inl e →
  ∃ l, e = KeyError (KInt l) ∧ l ∈ ds_y ds ∧ m !! l = None.
Proof.
  unfold map_labels.
  destruct (try_map (lookup_label m) (ds_y ds)) as [e'|ys] eqn:Hys; [|done].
  intros [= ->]. apply try_map_inl in Hys as (l & Hl & He).
  unfold lookup_label in He. destruct (m !! l) eqn:Hml; [done|].
  exists l. by simplify_eq.
Qed.

Lemma relabel_mode_run data i mode m ds :
  table_of data (task_key i mode) = Some ds →
  relabel_mode m i mode data =
  match map_labels m ds with
  | inr ds' => (inr (), <[task_key i mode := EDataset ds']> data)
  | inl e => (inl e, data)
  end.
Proof.
  intros Hds%table_of_Some. unfold relabel_mode, bind.
  rewrite (get_dataset_run _ _ _ Hds).
  by destruct (map_labels m ds).
Qed.

Lemma label_modes_NoDup : NoDup label_modes.
Proof.
  unfold label_modes.
  repeat (constructor;
    [rewrite ?elem_of_cons, elem_of_nil; intros H; by repeat destruct H as [H|H]|]).
  constructor.
Qed.

(** The inner loop, for one task [i] with inverted map [m], from a state [s]
    that holds the three splits of the task. *)
Lemma relabel_modes_run (s : gmap string (@entry F)) i m :
  (∀ mode, mode ∈ label_modes → is_Some (table_of s (task_key i mode))) →
  match for_each label_modes (relabel_mode m i) s with
  | (inr _, s') =>
      (∀ mode, mode ∈ label_modes →
         ∃ ds ds', table_of s (task_key i mode) = Some ds ∧
                   table_of s' (task_key i mode) = Some ds' ∧
                   relabeled m ds ds') ∧
      (∀ k, (∀ mode, mode ∈ label_modes → k ≠ task_key i mode) →
            s' !! k = s !! k)
  | (inl e, _) =>
      ∃ mode ds l, mode ∈ label_modes ∧
                   table_of s (task_key i mode) = Some ds ∧
                   l ∈ ds_y ds ∧ m !! l = None ∧ e = KeyError (KInt l)
  end.
Proof.
  intros Htab.
  pose proof (for_each_inv
    (λ done s',
       (∀ mode, mode ∈ done →
          ∃ ds ds', table_of s (task_key i mode) = Some ds ∧
                    table_of s' (task_key i mode) = Some ds' ∧
                    relabeled m ds ds') ∧
       (∀ k, (∀ mode, mode ∈ done → k ≠ task_key i mode) → s' !! k = s !! k))
    (λ e, ∃ mode ds l, mode ∈ label_modes ∧
                       table_of s (task_key i mode) = Some ds ∧
                       l ∈ ds_y ds ∧ m !! l = None ∧ e = KeyError (KInt l))
    (relabel_mode m i) label_modes s) as Hinv.
  apply Hinv; clear Hinv.
  - split; [intros mode Hm; by apply elem_of_nil in Hm|done].
  - intros done x rest s' Hxs [Hdone Hframe].
    destruct (split_fresh _ _ _ _ label_modes_NoDup Hxs) as [Hx Hfresh].
    destruct (Htab x Hx) as [ds Hds].
    assert (table_of s' (task_key i x) = Some ds) as Hds'.
    { unfold table_of. rewrite Hframe; [by apply table_of_Some in Hds as ->|].
      intros mode Hmode Heq. apply task_key_inj in Heq as [_ ->]. done. }
    rewrite (relabel_mode_run _ _ _ _ _ Hds').
    destruct (map_labels m ds) as [e|ds2] eqn:Hmap.
    + apply map_labels_inl in Hmap as (l & -> & Hl & Hml).
      by exists x, ds, l.
    + apply map_labels_inr in Hmap. split.
      * intros mode [Hmode| ->]%elem_of_snoc.
        -- destruct (Hdone mode Hmode) as (d & d' & Hd & Hd' & Hrel).
           exists d, d'. split_and!; [done| |done].
           unfold table_of. rewrite lookup_insert_ne; [done|].
           intros Heq. apply task_key_inj in Heq as [_ ->]. done.
        -- exists ds, ds2. split_and!; [done| |done].
           unfold table_of. by rewrite lookup_insert_eq.
      * intros k Hk. rewrite lookup_insert_ne.
        -- apply Hframe. intros mode Hmode. apply Hk, elem_of_snoc. by left.
        -- intros Heq. apply (Hk x); [apply elem_of_snoc; by right|done].
Qed.

Lemma relabel_task_run (s : gmap string (@entry F)) md i m :
  s !! "metadata" = Some (EMetadata md) →
  local_to_global py_int md i = Some m →
  relabel_task py_int i s = for_each label_modes (relabel_mode m i) s.
Proof.
  intros Hmd Hm. unfold relabel_task, bind, get_metadata, getitem, bind.
  rewrite Hmd. simpl. unfold local_to_global in Hm.
  destruct (global_to_local_class_mappings md !! task_name i) as [items|];
    [|done]. simpl.
  destruct (invert_items py_int items ∅) as [e|m']; [done|].
  by simplify_eq.
Qed.

Lemma range_NoDup a b : NoDup (range a b).
Proof. apply NoDup_seq. Qed.

(** The whole of [map_labels_to_global]: what holds when it returns, and
    what its exception is. *)
Lemma map_labels_to_global_run data md n :
  labels_wf py_int data md n →
  match map_labels_to_global py_int n data with
  | (inr _, data') =>
      (∀ i mode, 1 ≤ i ≤ n → mode ∈ label_modes →
         ∃ ds ds' m, table_of data (task_key i mode) = Some ds ∧
                     table_of data' (task_key i mode) = Some ds' ∧
                     local_to_global py_int md i = Some m ∧
                     relabeled m ds ds') ∧
      (∀ k, (∀ i mode, 1 ≤ i ≤ n → mode ∈ label_modes → k ≠ task_key i mode) →
            data' !! k = data !! k)
  | (inl e, _) => ∃ l, missing_label py_int data md n l ∧ e = KeyError (KInt l)
  end.
Proof.
  intros (Hmd & Hmaps & Htabs).
  change (map_labels_to_global py_int n data) with
    (for_each (range 1 (n + 1)) (relabel_task py_int) data).
  pose proof (for_each_inv
    (λ done s,
       (∀ i mode, i ∈ done → mode ∈ label_modes →
          ∃ ds ds' m, table_of data (task_key i mode) = Some ds ∧
                      table_of s (task_key i mode) = Some ds' ∧
                      local_to_global py_int md i = Some m ∧
                      relabeled m ds ds') ∧
       (∀ k, (∀ i mode, i ∈ done → mode ∈ label_modes → k ≠ task_key i mode) →
             s !! k = data !! k))
    (λ e, ∃ l, missing_label py_int data md n l ∧ e = KeyError (KInt l))
    (relabel_task py_int) (range 1 (n + 1)) data) as Hinv.
  match type of Hinv with _ → _ → ?C =>
    assert C as Hrun; [apply Hinv; clear Hinv|clear Hinv] end.
  - split; [intros i mode Hi; by apply elem_of_nil in Hi|done].
  - intros done x rest s Hxs [Hdone Hframe].
    destruct (split_fresh _ _ _ _ (range_NoDup _ _) Hxs) as [Hx Hfresh].
    apply elem_of_range in Hx.
    assert (∀ mode, s !! task_key x mode = data !! task_key x mode) as Hsame.
    { intros mode. apply Hframe. intros i mode' Hi _ Heq.
      apply task_key_inj in Heq as [-> _]. done. }
    destruct (Hmaps x ltac:(lia)) as [m Hm].
    rewrite (relabel_task_run s md x m); [|rewrite <-Hmd; apply Hframe|done].
    2:{ intros i mode _ _ Heq. symmetry in Heq.
        by apply task_key_ne_metadata in Heq. }
    pose proof (relabel_modes_run s x m) as Hinner.
    destruct (for_each label_modes (relabel_mode m x) s) as [[e|[]] s'].
    + destruct Hinner as (mode & ds & l & Hmode & Hds & Hl & Hml & ->).
      { intros mode Hmode. unfold table_of. rewrite Hsame.
        apply (Htabs x mode); [lia|done]. }
      exists l. split; [|done]. exists x, mode, ds, m.
      split_and!; [lia..|done| |done|done|done].
      unfold table_of in *. by rewrite <-Hsame.
    + destruct Hinner as [Hnew Hframe'].
      { intros mode Hmode. unfold table_of. rewrite Hsame.
        apply (Htabs x mode); [lia|done]. }
      split.
      * intros i mode [Hi| ->]%elem_of_snoc Hmode.
        -- destruct (Hdone i mode Hi Hmode) as (ds & ds' & m' & ? & Hs & ? & ?).
           exists ds, ds', m'. split_and!; [done| |done..].
           unfold table_of in *. rewrite Hframe'; [done|].
           intros mode' _ Heq. apply task_key_inj in Heq as [-> _]. done.
        -- destruct (Hnew mode Hmode) as (ds & ds' & Hs & Hs' & Hrel).
           exists ds, ds', m. split_and!; [|done..].
           unfold table_of in *. by rewrite <-Hsame.
      * intros k Hk. rewrite Hframe'.
        -- apply Hframe. intros i mode Hi. apply Hk, elem_of_snoc. by left.
        -- intros mode Hmode. apply Hk; [apply elem_of_snoc; by right|done].
  - destruct (for_each _ _ data) as [[e|[]] data']; [done|].
    destruct Hrun as [Hdone Hframe]. split.
    + intros i mode Hi. apply Hdone, elem_of_range. lia.
    + intros k Hk. apply Hframe. intros i mode Hi%elem_of_range.
      apply Hk. lia.
Qed.

(** The inverted map sends a local label to a global label that the
    mapping sends to it. *)
Lemma invert_items_spec items acc m l g :
  invert_items py_int items acc = inr m → m !! l = Some g →
  acc !! l = Some g ∨ inverse_image py_int items l g.
Proof.
  revert acc. induction items as [|[k v] items IH]; intros acc; simpl.
  - intros [= ->]. by left.
  - destruct (py_int k) as [g'|] eqn:Hk; [|done]. intros Hinv Hl.
    destruct (IH _ Hinv Hl) as [Hacc|(k' & Hin & Hk')].
    + destruct (decide (v = l)) as [->|Hne].
      * rewrite lookup_insert_eq in Hacc. simplify_eq. right.
        exists k. split; [apply elem_of_cons; by left|done].
      * rewrite lookup_insert_ne in Hacc by done. by left.
    + right. exists k'. split; [apply elem_of_cons; by right|done].
Qed.

Lemma local_to_global_spec md i m :
  local_to_global py_int md i = Some m →
  ∃ items, global_to_local_class_mappings md !! task_name i = Some items ∧
           ∀ l g, m !! l = Some g → inverse_image py_int items l g.
Proof.
  unfold local_to_global.
  destruct (global_to_local_class_mappings md !! task_name i) as [items|];
    [|done].
  destruct (invert_items py_int items ∅) as [e|m'] eqn:Hinv; [done|].
  intros [= ->]. exists items. split; [done|]. intros l g Hl.
  by destruct (invert_items_spec _ _ _ _ _ Hinv Hl).
Qed.

(** C6: when every local label of the splits train, val, test of the tasks
    1..num_tasks is a key of the inverted map of its task, label
    reconciliation returns, and the table of each such split is the one
    before with the same rows in the same order, the columns other than y
    unchanged, and each label replaced by its image under the inverted map
    of task i, a global label that the mapping of task i sends to it. *)
Theorem map_labels_to_global_relabels data md (n : nat) :
  labels_wf py_int data md n →
  (∀ l, ¬ missing_label py_int data md n l) →
  ∃ data',
    map_labels_to_global py_int n data = (inr (), data') ∧
    (∀ i mode, 1 ≤ i ≤ n → mode ∈ label_modes →
       ∃ ds ds' items m,
         table_of data (task_key i mode) = Some ds ∧
         table_of data' (task_key i mode) = Some ds' ∧
         global_to_local_class_mappings md !! task_name i = Some items ∧
         local_to_global py_int md i = Some m ∧
         ds_embedding ds' = ds_embedding ds ∧
         ds_id ds' = ds_id ds ∧
         ds_relative_embeddings ds' = ds_relative_embeddings ds ∧
         Forall2 (λ l g, m !! l = Some g ∧ inverse_image py_int items l g)
                 (ds_y ds) (ds_y ds')) ∧
    (∀ k, (∀ i mode, 1 ≤ i ≤ n → mode ∈ label_modes → k ≠ task_key i mode) →
          data' !! k = data !! k).
Proof.
  intros Hwf Hcovered.
  pose proof (map_labels_to_global_run data md n Hwf) as Hrun.
  destruct (map_labels_to_global py_int n data) as [[e|[]] data'].
  { destruct Hrun as (l & Hl & _). by destruct (Hcovered l). }
  exists data'. destruct Hrun as [Hnew Hframe]. split_and!; [done| |done].
  intros i mode Hi Hmode.
  destruct (Hnew i mode Hi Hmode) as (ds & ds' & m & Hds & Hds' & Hm & Hrel).
  destruct (local_to_global_spec md i m Hm) as (items & Hitems & Himg).
  destruct Hrel as (He & Hid & Hr & Hys).
  exists ds, ds', items, m. split_and!; [done..|].
  eapply Forall2_impl; [done|]. intros l g Hl. split; [done|by apply Himg].
Qed.

(** C7: on a store fit for label reconciliation, the operation raises iff a
    split train, val or test of a task 1..num_tasks holds a local label that
    is no key of the inverted map of the task; the exception is the
    [KeyError] of such a label, and it ends the operation. *)
Theorem map_labels_to_global_fails_iff data md (n : nat) :
  labels_wf py_int data md n →
  ((∃ e data', map_labels_to_global py_int n data = (inl e, data')) ↔
   ∃ l, missing_label py_int data md n l) ∧
  (∀ e data', map_labels_to_global py_int n data = (inl e, data') →
     ∃ l, e = KeyError (KInt l) ∧ missing_label py_int data md n l).
Proof.
  intros Hwf.
  pose proof (map_labels_to_global_run data md n Hwf) as Hrun.
  destruct (map_labels_to_global py_int n data) as [[e|[]] data'].
  - destruct Hrun as (l & Hl & ->). split.
    + split; [by exists l|by exists (KeyError (KInt l)), data'].
    + intros e d [= <- _]. by exists l.
  - split; [|done]. split; [by intros (e & d & ?)|].
    intros (l & i & mode & ds & m & Hi & Hmode & Hds & Hm & Hl & Hnone).
    destruct Hrun as [Hnew _].
    destruct (Hnew i mode Hi Hmode) as (ds1 & ds' & m1 & Hds1 & _ & Hm1 & Hrel).
    simplify_eq. destruct Hrel as (_ & _ & _ & Hys).
    apply list_elem_of_lookup in Hl as [r Hr].
    destruct (Forall2_lookup_l _ _ _ _ _ Hys Hr) as (g & _ & Hg).
    congruence.
Qed.

End Labels.

(** ** Label reconciliation on the example stores *)

Lemma local_labels_wf data :
  data = local_labels ∨ data = local_labels_unmapped →
  labels_wf parse_decimal data two_task_metadata 2.
Proof.
  intros Hdata. split_and!.
  - by destruct Hdata as [->| ->].
  - intros i Hi. destruct i as [|[|[|i]]]; [lia| | |lia];
      vm_compute; eexists; reflexivity.
  - intros i mode Hi Hmode.
    destruct i as [|[|[|i]]]; [lia| | |lia]; case_mode Hmode;
      destruct Hdata as [->| ->]; vm_compute; eexists; reflexivity.
Defined.

Lemma local_labels_covered l :
  ¬ missing_label parse_decimal local_labels two_task_metadata 2 l.
Proof.
  intros (i & mode & ds & m & Hi & Hmode & Hds & Hm & Hl & Hnone).
  destruct i as [|[|[|i]]]; [lia| | |lia]; case_mode Hmode;
    vm_compute in Hds; injection Hds as <-;
    vm_compute in Hm; injection Hm as <-;
    simpl in Hl; rewrite !elem_of_cons, elem_of_nil in Hl;
    repeat (destruct Hl as [->|Hl]; [vm_compute in Hnone; discriminate|]);
    exact Hl.
Defined.

Lemma map_labels_to_global_relabels_witness :
  ∃ data',
    map_labels_to_global parse_decimal 2 local_labels = (inr (), data') ∧
    ds_y <$> table_of data' (task_key 1 "train") = Some [3; 7; 7]%Z ∧
    ds_y <$> table_of data' (task_key 2 "test") = Some [1; 4]%Z ∧
    ds_id <$> table_of data' (task_key 2 "test") = Some [22; 23]%Z.
Proof.
  destruct (map_labels_to_global_relabels parse_decimal local_labels
    two_task_metadata 2 (local_labels_wf _ (or_introl eq_refl))
    local_labels_covered) as (data' & Hrun & _).
  exists data'. split; [exact Hrun|].
  vm_compute in Hrun. injection Hrun as <-. by vm_compute.
Defined.

Lemma map_labels_to_global_fails_iff_witness :
  ∃ data',
    map_labels_to_global parse_decimal 2 local_labels_unmapped =
      (inl (KeyError (KInt 2)), data') ∧
    missing_label parse_decimal local_labels_unmapped two_task_metadata 2 2.
Proof.
  destruct (map_labels_to_global_fails_iff parse_decimal local_labels_unmapped
    two_task_metadata 2 (local_labels_wf _ (or_intror eq_refl))) as [_ Hexn].
  eexists. split; [vm_compute; reflexivity|].
  edestruct Hexn as (l & Hl & Hmiss); [vm_compute; reflexivity|].
  by injection Hl as <-.
Defined.

(** ** Transposition and matrix product *)

Section Tensors.

Context {F : Type} `{TensorOps F}.
Implicit Types m x y : list (list F).

Lemma transpose_w_length w m :
  has_width w m → length (transpose_w w m) = w.
Proof.
  induction 1 as [|r m Hr _ IH]; simpl.
  - by rewrite length_replicate.
  - rewrite length_zip_with, IH. lia.
Qed.

Lemma transpose_w_rows w m :
  has_width (length m) (transpose_w w m).
Proof.
  unfold has_width. induction m as [|r m IH]; simpl.
  - apply Forall_replicate. done.
  - generalize dependent (transpose_w w m). intros t Ht. revert r.
    induction Ht as [|c t Hc _ IHt]; intros [|a r]; simpl; constructor;
      simpl; auto.
Qed.

Lemma transpose_w_cons k (r : list F) t :
  length r = length t →
  transpose_w (Datatypes.S k) (zip_with cons r t) = r :: transpose_w k t.
Proof.
  revert t. induction r as [|a r IH]; intros [|c t] Hlen; simpl in *;
    try done.
  injection Hlen as Hlen. by rewrite (IH t Hlen).
Qed.

Lemma transpose_w_involutive w m :
  has_width w m → transpose_w (length m) (transpose_w w m) = m.
Proof.
  induction 1 as [|r m Hr Hm IH]; simpl.
  - induction w as [|w IHw]; [done|]. simpl. done.
  - rewrite transpose_w_cons; [by rewrite IH|].
    by rewrite (transpose_w_length w m).
Qed.

(** Transposing twice gives the tensor back, for D > 0 columns and at least
    one row. *)
Lemma transpose_involutive d m :
  0 < d → m ≠ [] → has_width d m → transpose (transpose m) = m.
Proof.
  intros Hd Hne Hm. unfold transpose.
  assert (width m = d) as ->.
  { destruct m as [|r m]; [done|]. by inversion Hm. }
  assert (width (transpose_w d m) = length m) as ->.
  { pose proof (transpose_w_length d m Hm) as Hlen.
    pose proof (transpose_w_rows d m) as Hrows.
    destruct (transpose_w d m) as [|c t]; simpl in *; [lia|].
    by inversion Hrows. }
  by apply transpose_w_involutive.
Qed.

Lemma transpose_length d m :
  m ≠ [] → has_width d m → length (transpose m) = d.
Proof.
  intros Hne Hm. unfold transpose.
  assert (width m = d) as ->.
  { destruct m as [|r m]; [done|]. by inversion Hm. }
  by apply transpose_w_length.
Qed.

(** [x @ y.T] has the inner product of row n of x and row a of y at (n, a). *)
Lemma matmul_transpose d x y :
  0 < d → y ≠ [] → has_width d x → has_width d y →
  matmul x (transpose y) = inr ((λ r, dot r <$> y) <$> x).
Proof.
  intros Hd Hne Hx Hy. unfold matmul.
  rewrite (transpose_length d y Hne Hy), (transpose_involutive d y Hd Hne Hy).
  assert (forallb (λ r, length r =? d) x = true) as ->; [|done].
  apply forallb_forall. intros r Hr%list_elem_of_In.
  apply Nat.eqb_eq. by eapply (proj1 (Forall_forall _ _) Hx).
Qed.

Lemma normalize_row_length (v : list F) : length (normalize_row v) = length v.
Proof. unfold normalize_row. by rewrite length_map. Qed.

Lemma normalize_width d m : has_width d m → has_width d (normalize m).
Proof.
  unfold has_width, normalize. intros Hm. apply Forall_fmap.
  eapply Forall_impl; [done|]. intros r Hr. simpl.
  by rewrite normalize_row_length.
Qed.

(** The relative space of the projection, entry by entry. *)
Lemma rel_space_rows d (samples anchors : list (list F)) :
  0 < d → anchors ≠ [] → has_width d samples → has_width d anchors →
  matmul (normalize samples) (transpose (normalize anchors)) =
  inr (relative_row anchors <$> samples).
Proof.
  intros Hd Hne Hs Ha.
  rewrite (matmul_transpose d); [|done| |by apply normalize_width..].
  - f_equal. unfold normalize, relative_row.
    rewrite <-list_fmap_compose. apply list_fmap_ext. intros _ x _. simpl.
    by rewrite <-list_fmap_compose.
  - destruct anchors; [done|]. done.
Qed.

End Tensors.

(** ** Projection *)

Section Projection.

Context {F : Type} `{TensorOps F}.
Implicit Types data s : gmap string (@entry F).

Lemma add_tensor_column_ok (ds : @Dataset F) rel :
  wf_dataset ds → length rel = ds_len ds →
  add_tensor_column ds rel = inr (with_relative ds rel).
Proof.
  intros (He & Hy & _) Hrel. unfold add_tensor_column, from_dict. simpl.
  unfold ds_len in *. rewrite He, Hy, Hrel, !Nat.eqb_refl. done.
Qed.

Lemma project_mode_run s i mode (anchors : list (list F)) d ds :
  0 < d → anchors ≠ [] → has_width d anchors →
  table_of s (task_key i mode) = Some ds →
  wf_dataset ds → has_width d (ds_embedding ds) →
  project_mode (normalize anchors) i mode s =
  (inr (), <[task_key i mode :=
              EDataset (with_relative ds
                (relative_row anchors <$> ds_embedding ds))]> s).
Proof.
  intros Hd Hne Ha Hds%table_of_Some Hwf Hw. unfold project_mode, bind.
  rewrite (get_dataset_run _ _ _ Hds).
  rewrite (rel_space_rows d) by done. simpl.
  rewrite (get_dataset_run _ _ _ Hds).
  rewrite add_tensor_column_ok; [done|done|].
  rewrite length_fmap. by destruct Hwf as [-> _].
Qed.

Lemma projection_modes_NoDup : NoDup projection_modes.
Proof.
  unfold projection_modes.
  repeat (constructor;
    [rewrite ?elem_of_cons, elem_of_nil; intros H'; by repeat destruct H' as [H'|H']|]).
  constructor.
Qed.

(** The inner loop, for task [i] with the anchors [anchors]. *)
Lemma project_modes_run s i (anchors : list (list F)) d :
  0 < d → anchors ≠ [] → has_width d anchors →
  (∀ mode, mode ∈ projection_modes →
     ∃ ds, table_of s (task_key i mode) = Some ds ∧
           wf_dataset ds ∧ has_width d (ds_embedding ds)) →
  ∃ s',
    for_each projection_modes (project_mode (normalize anchors) i) s
      = (inr (), s') ∧
    (∀ mode, mode ∈ projection_modes →
       ∃ ds, table_of s (task_key i mode) = Some ds ∧
             table_of s' (task_key i mode) =
               Some (with_relative ds (relative_row anchors <$> ds_embedding ds))) ∧
    (∀ k, (∀ mode, mode ∈ projection_modes → k ≠ task_key i mode) →
          s' !! k = s !! k).
Proof.
  intros Hd Hne Ha Htab.
  pose proof (for_each_inv
    (λ done s',
       (∀ mode, mode ∈ done →
          ∃ ds, table_of s (task_key i mode) = Some ds ∧
                table_of s' (task_key i mode) =
                  Some (with_relative ds
                          (relative_row anchors <$> ds_embedding ds))) ∧
       (∀ k, (∀ mode, mode ∈ done → k ≠ task_key i mode) → s' !! k = s !! k))
    (λ _, False)
    (project_mode (normalize anchors) i) projection_modes s) as Hinv.
  match type of Hinv with _ → _ → ?C =>
    assert C as Hrun; [apply Hinv; clear Hinv|clear Hinv] end.
  - split; [intros mode Hm; by apply elem_of_nil in Hm|done].
  - intros done x rest s' Hxs [Hdone Hframe].
    destruct (split_fresh _ _ _ _ projection_modes_NoDup Hxs) as [Hx Hfresh].
    destruct (Htab x Hx) as (ds & Hds & Hwf & Hw).
    assert (table_of s' (task_key i x) = Some ds) as Hds'.
    { unfold table_of in *. rewrite Hframe; [done|].
      intros mode Hmode Heq. apply task_key_inj in Heq as [_ ->]. done. }
    rewrite (project_mode_run s' i x anchors d ds) by done. split.
    + intros mode [Hmode| ->]%elem_of_snoc.
      * destruct (Hdone mode Hmode) as (d0 & Hd0 & Hd0').
        exists d0. split; [done|]. unfold table_of in *.
        rewrite lookup_insert_ne; [done|].
        intros Heq. apply task_key_inj in Heq as [_ ->]. done.
      * exists ds. split; [done|]. unfold table_of.
        by rewrite lookup_insert_eq.
    + intros k Hk. rewrite lookup_insert_ne.
      * apply Hframe. intros mode Hmode. apply Hk, elem_of_snoc. by left.
      * intros Heq. apply (Hk x); [apply elem_of_snoc; by right|done].
  - destruct (for_each _ _ s) as [[e|[]] s']; [done|]. by exists s'.
Qed.

Lemma project_task_run s i (anchors : @Dataset F) :
  table_of s (task_key i "anchors") = Some anchors →
  project_task i s =
  for_each projection_modes
    (project_mode (normalize (ds_embedding anchors)) i) s.
Proof.
  intros Ha%table_of_Some. unfold project_task, bind.
  by rewrite (get_dataset_run _ _ _ Ha).
Qed.

(** The whole projection loop returns, and sets the column of each split
    train, test of each task 0..n from the anchors of the task. *)
Lemma map_to_relative_run data n d :
  projection_wf data n d →
  ∃ data',
    map_to_relative n data = (inr (), data') ∧
    (∀ i mode, i ≤ n → mode ∈ projection_modes →
       ∃ anchors ds,
         table_of data (task_key i "anchors") = Some anchors ∧
         table_of data (task_key i mode) = Some ds ∧
         table_of data' (task_key i mode) =
           Some (with_relative ds
                   (relative_row (ds_embedding anchors) <$> ds_embedding ds))) ∧
    (∀ k, (∀ i mode, i ≤ n → mode ∈ projection_modes → k ≠ task_key i mode) →
          data' !! k = data !! k).
Proof.
  intros [Hd Hwf].
  change (map_to_relative n data) with
    (for_each (range 0 (n + 1)) project_task data).
  pose proof (for_each_inv
    (λ done s,
       (∀ i mode, i ∈ done → mode ∈ projection_modes →
          ∃ anchors ds,
            table_of data (task_key i "anchors") = Some anchors ∧
            table_of data (task_key i mode) = Some ds ∧
            table_of s (task_key i mode) =
              Some (with_relative ds
                      (relative_row (ds_embedding anchors) <$> ds_embedding ds))) ∧
       (∀ k, (∀ i mode, i ∈ done → mode ∈ projection_modes →
                k ≠ task_key i mode) → s !! k = data !! k))
    (λ _, False) project_task (range 0 (n + 1)) data) as Hinv.
  match type of Hinv with _ → _ → ?C =>
    assert C as Hrun; [apply Hinv; clear Hinv|clear Hinv] end.
  - split; [intros i mode Hi; by apply elem_of_nil in Hi|done].
  - intros done x rest s Hxs [Hdone Hframe].
    destruct (split_fresh _ _ _ _ (range_NoDup _ _) Hxs) as [Hx Hfresh].
    apply elem_of_range in Hx.
    assert (∀ mode, s !! task_key x mode = data !! task_key x mode) as Hsame.
    { intros mode. apply Hframe. intros i mode' Hi _ Heq.
      apply task_key_inj in Heq as [-> _]. done. }
    destruct (Hwf x ltac:(lia)) as [(anchors & Ha & Hne & Haw) Htab].
    rewrite (project_task_run s x anchors)
      by (unfold table_of in *; by rewrite Hsame).
    destruct (project_modes_run s x (ds_embedding anchors) d Hd Hne Haw)
      as (s' & -> & Hnew & Hframe').
    { intros mode Hmode. destruct (Htab mode Hmode) as (ds & Hds & ?).
      exists ds. split; [|done]. unfold table_of in *. by rewrite Hsame. }
    split.
    + intros i mode [Hi| ->]%elem_of_snoc Hmode.
      * destruct (Hdone i mode Hi Hmode) as (a0 & d0 & ? & ? & Hs).
        exists a0, d0. split_and!; [done..|].
        unfold table_of in *. rewrite Hframe'; [done|].
        intros mode' _ Heq. apply task_key_inj in Heq as [-> _]. done.
      * destruct (Hnew mode Hmode) as (ds & Hds & Hds').
        exists anchors, ds. split_and!; [done| |done].
        unfold table_of in *. by rewrite <-Hsame.
    + intros k Hk. rewrite Hframe'.
      * apply Hframe. intros i mode Hi. apply Hk, elem_of_snoc. by left.
      * intros mode Hmode. apply Hk; [apply elem_of_snoc; by right|done].
  - destruct (for_each _ _ data) as [[e|[]] data']; [done|].
    destruct Hrun as [Hdone Hframe]. exists data'. split_and!; [done| |].
    + intros i mode Hi. apply Hdone, elem_of_range. lia.
    + intros k Hk. apply Hframe. intros i mode Hi%elem_of_range.
      apply Hk. lia.
Qed.

(** The column that the projection adds, entry by entry, in terms of the
    kernels of the backend: the entry of row r against anchor c is the inner
    product of the sample and the anchor, each divided entry by entry by the
    clamp from below of its norm. *)
Lemma map_to_relative_entries data (n d : nat) :
  projection_wf data n d →
  ∃ data',
    map_to_relative n data = (inr (), data') ∧
    ∀ i mode, i ≤ n → mode ∈ projection_modes →
      ∃ anchors ds ds' rel_space,
        table_of data (task_key i "anchors") = Some anchors ∧
        table_of data (task_key i mode) = Some ds ∧
        table_of data' (task_key i mode) = Some ds' ∧
        ds_relative_embeddings ds' = Some rel_space ∧
        ds_embedding ds' = ds_embedding ds ∧
        ds_y ds' = ds_y ds ∧
        ds_id ds' = ds_id ds ∧
        length rel_space = ds_len ds ∧
        has_width (length (ds_embedding anchors)) rel_space ∧
        ∀ r x c a,
          ds_embedding ds !! r = Some x →
          ds_embedding anchors !! c = Some a →
          ∃ row,
            rel_space !! r = Some row ∧
            row !! c =
              Some (dot (map (λ v, fdiv v (clamp_min (vector_norm x) eps)) x)
                        (map (λ v, fdiv v (clamp_min (vector_norm a) eps)) a)).
Proof.
  intros Hwf. destruct (map_to_relative_run data n d Hwf) as (data' & Hrun & Hnew & _).
  exists data'. split; [done|]. intros i mode Hi Hmode.
  destruct (Hnew i mode Hi Hmode) as (anchors & ds & Ha & Hds & Hds').
  destruct Hwf as [Hd Hwf]. destruct (Hwf i Hi) as [(a' & Ha' & Hne & Haw) Htab].
  destruct (Htab mode Hmode) as (ds0 & Hds0 & Hwfds & Hw). simplify_eq.
  eexists anchors, ds, _, _. split_and!; [done..| | |].
  - rewrite length_fmap. by destruct Hwfds as [-> _].
  - apply Forall_fmap, Forall_true. intros x. simpl. unfold relative_row.
    by rewrite length_fmap.
  - intros r x c a Hx Hc. exists (relative_row (ds_embedding anchors) x).
    split; [by rewrite list_lookup_fmap, Hx|].
    unfold relative_row. by rewrite list_lookup_fmap, Hc.
Qed.

End Projection.

(** ** The projection over the reals: vectors of zero norm *)

Lemma Rdot_zero_l (u v : list R) : Forall (λ x, x = 0%R) u → Rdot u v = 0%R.
Proof.
  unfold Rdot. intros Hu. revert v.
  induction Hu as [|x u -> _ IH]; intros [|y v]; simpl; try done.
  rewrite IH. lra.
Qed.

Lemma Rdot_zero_r (u v : list R) : Forall (λ x, x = 0%R) v → Rdot u v = 0%R.
Proof.
  unfold Rdot. intros Hv. revert u.
  induction Hv as [|y v -> _ IH]; intros [|x u]; simpl; try done.
  rewrite IH. lra.
Qed.

Lemma Rdot_self_nonneg (v : list R) : (0 <= Rdot v v)%R.
Proof.
  unfold Rdot. induction v as [|x v IH]; simpl; [lra|].
  pose proof (Rle_0_sqr x) as Hx. unfold Rsqr in Hx. lra.
Qed.

Lemma Rdot_self_zero (v : list R) :
  Rdot v v = 0%R → Forall (λ x, x = 0%R) v.
Proof.
  unfold Rdot. induction v as [|x v IH]; simpl; [constructor|].
  intros Hsum. pose proof (Rle_0_sqr x) as Hx. unfold Rsqr in Hx.
  pose proof (Rdot_self_nonneg v) as Hv. unfold Rdot in Hv.
  constructor.
  - apply Rsqr_0_uniq. unfold Rsqr. lra.
  - apply IH. lra.
Qed.

(** Over the reals a vector has norm zero only if it is the zero vector. *)
Lemma vector_norm_zero (v : list R) :
  vector_norm v = 0%R → Forall (λ x, x = 0%R) v.
Proof.
  simpl. intros Hnorm. apply Rdot_self_zero.
  apply sqrt_eq_0; [apply Rdot_self_nonneg|done].
Qed.

(** The clamp keeps the division defined: the zero vector is normalized to
    the zero vector. *)
Lemma normalize_row_zero (v : list R) :
  Forall (λ x, x = 0%R) v → Forall (λ x, x = 0%R) (normalize_row v).
Proof.
  intros Hv. unfold normalize_row. apply Forall_fmap.
  eapply Forall_impl; [done|]. intros x ->. simpl. unfold Rdiv. lra.
Qed.

Lemma relative_row_zero_sample (anchors : list (list R)) (x : list R) :
  vector_norm x = 0%R → relative_row anchors x = replicate (length anchors) 0%R.
Proof.
  intros Hx%vector_norm_zero%normalize_row_zero. unfold relative_row.
  induction anchors as [|a anchors IH]; [done|].
  rewrite fmap_cons. cbn [length replicate]. f_equal; [|exact IH].
  exact (Rdot_zero_l _ _ Hx).
Qed.

Lemma relative_row_zero_anchor (anchors : list (list R)) (x a : list R) c :
  anchors !! c = Some a → vector_norm a = 0%R →
  relative_row anchors x !! c = Some 0%R.
Proof.
  intros Ha Hnorm%vector_norm_zero%normalize_row_zero. unfold relative_row.
  rewrite list_lookup_fmap, Ha. cbn [fmap option_fmap option_map]. f_equal.
  exact (Rdot_zero_r _ _ Hnorm).
Qed.

(** ** The projection on the example store *)

Lemma zero_sample_wf : projection_wf zero_sample 0 4.
Proof.
  split; [lia|]. intros i Hi. assert (i = 0) as -> by lia. split.
  - eexists. split; [vm_compute; reflexivity|]. split; [done|].
    by repeat constructor.
  - intros mode Hmode. unfold projection_modes in Hmode.
    rewrite !elem_of_cons, elem_of_nil in Hmode.
    destruct Hmode as [->|[->|[]]]; eexists;
      (split; [vm_compute; reflexivity|]); split; by repeat constructor.
Defined.

Lemma norm_of_zero_vector : vector_norm [0; 0; 0; 0]%R = 0%R.
Proof.
  simpl. unfold Rdot. simpl.
  replace (0 * 0 + (0 * 0 + (0 * 0 + (0 * 0 + 0))))%R with 0%R by lra.
  apply sqrt_0.
Qed.

(** C4 (as stated) fails: the train sample of the store is the zero vector,
    of norm zero; the stage returns and the split has the new column, whose
    entry for the sample is 0. *)
Lemma projection_accepts_zero_vector :
  vector_norm [0; 0; 0; 0]%R = 0%R ∧
  ds_embedding <$> table_of zero_sample (task_key 0 "train")
    = Some [[0; 0; 0; 0]%R] ∧
  ∃ data' ds',
    map_to_relative 0 zero_sample = (inr (), data') ∧
    table_of data' (task_key 0 "train") = Some ds' ∧
    ds_relative_embeddings ds' = Some [[0%R]].
Proof.
  split; [apply norm_of_zero_vector|]. split; [by vm_compute|].
  destruct (map_to_relative_run zero_sample 0 4 zero_sample_wf)
    as (data' & Hrun & Hnew & _).
  destruct (Hnew 0 "train" (le_n 0)) as (anchors & ds & Ha & Hds & Hds').
  { unfold projection_modes. rewrite !elem_of_cons. auto. }
  vm_compute in Ha. injection Ha as <-.
  vm_compute in Hds. injection Hds as <-.
  eexists data', _. split_and!; [done..|]. simpl. do 2 f_equal.
  apply (relative_row_zero_sample [[1; 0; 0; 0]%R]), norm_of_zero_vector.
Qed.

(** Scenario B of the specification: the anchor e1 and the sample 2 e1 have
    cosine similarity 1. *)
Lemma relative_row_scenario_b :
  relative_row [[1; 0; 0; 0]]%R [2; 0; 0; 0]%R = [1%R].
Proof.
  assert (1 / 10 ^ 12 <= 1)%R as Heps.
  { pose proof (pow_R1_Rle 10 12 ltac:(lra)) as Hp.
    unfold Rdiv. rewrite Rmult_1_l, <-Rinv_1.
    apply Rinv_le_contravar; lra. }
  assert (sqrt (2 * 2 + (0 * 0 + (0 * 0 + (0 * 0 + 0)))) = 2)%R as H2.
  { replace (2 * 2 + (0 * 0 + (0 * 0 + (0 * 0 + 0))))%R with (Rsqr 2)
      by (unfold Rsqr; lra).
    apply sqrt_Rsqr. lra. }
  assert (sqrt (1 * 1 + (0 * 0 + (0 * 0 + (0 * 0 + 0)))) = 1)%R as H1.
  { replace (1 * 1 + (0 * 0 + (0 * 0 + (0 * 0 + 0))))%R with 1%R by lra.
    apply sqrt_1. }
  unfold relative_row, normalize_row. simpl. unfold Rdot. simpl.
  rewrite H1, H2, !Rmax_left by lra. f_equal. lra.
Qed.

(** ** Persistence *)

Section Persistence.

Context {F : Type}.
Implicit Types data self : gmap string (@entry F).
Implicit Types d : @disk F.

Lemma path_join_inj (p : list string) k k' :
  path_join p k = path_join p k' → k = k'.
Proof. unfold path_join. intros Heq%app_inv_head. by injection Heq. Qed.

(** A successful [save_to_disk], statement by statement. *)
Lemma save_to_disk_ok path data d data' d' :
  save_to_disk path (data, d) = (inr (), (data', d')) →
  ∃ md,
    data !! "metadata" = Some (EMetadata md) ∧
    path ∈ dirs d ∧
    bulk_save path (delete "metadata" data)
      (with_file (path_join path "metadata.json") (FJsonMetadata md)
         (with_file (path_join path "metadata.json") FEmpty d))
      = (inr (), d') ∧
    data' = <["metadata" := EMetadata md]> (delete "metadata" data).
Proof.
  unfold save_to_disk, save_metadata.
  intros ([] & [data1 d1] & Hmeta & Hrest)%bind_inr_inv.
  apply bind_inr_inv in Hmeta as ([] & [data2 d2] & Hopen & Hdump).
  apply bind_inr_inv in Hdump as (v & [data3 d3] & Hget & Hdump).
  apply bind_inr_inv in Hrest as (tmp & [data4 d4] & Hget' & Hrest).
  apply bind_inr_inv in Hrest as ([] & [data5 d5] & Hdel & Hrest).
  apply bind_inr_inv in Hrest as (self & [data6 d6] & Hself & Hrest).
  apply bind_inr_inv in Hrest as ([] & [data7 d7] & Hbulk & Hset).
  unfold on_disk, on_self, open_w, getitem, setitem, modify, get in *.
  cbn [fst snd] in *.
  destruct (decide (path ∈ dirs d)) as [Hdir|]; [|done].
  assert (d2 = with_file (path_join path "metadata.json") FEmpty d
          ∧ data2 = data) as [-> ->].
  { destruct (files d !! path_join path "metadata.json") as [[| | |]|];
      by simplify_eq. }
  destruct (data !! "metadata") as [e|] eqn:Hmd; [|done].
  injection Hget as <- <- <-.
  destruct e as [ds|md]; [done|].
  unfold json_dump, modify in Hdump. injection Hdump as <- <-.
  rewrite Hmd in Hget'. injection Hget' as <- <- <-.
  injection Hdel as <- <-. injection Hself as <- <- <-.
  destruct (bulk_save _ _ _) as [[e|[]] d8] eqn:Hb; [done|].
  injection Hbulk as <- <-. injection Hset as <- <-.
  by exists md.
Qed.

(** C10: when [save_to_disk] returns, the store is the one before the call:
    the entry [metadata], deleted for the bulk save, is back with its
    value. *)
Theorem save_to_disk_restores_store path data d data' d' :
  save_to_disk path (data, d) = (inr (), (data', d')) → data' = data.
Proof.
  intros (md & Hmd & _ & _ & ->)%save_to_disk_ok.
  rewrite insert_delete_eq. by apply insert_id.
Qed.

Lemma table_save_ok p (ds : @Dataset F) d d' :
  table_save p ds d = (inr (), d') →
  d' = with_file p (FTable ds) (with_dir p d) ∧
  ∀ f, files d !! p = Some f → is_table f.
Proof.
  unfold table_save. destruct (files d !! p) as [[| | |ds0]|]; try done;
    intros [= <-]; (split; [done|]); by intros f [= <-].
Qed.

Lemma fst_NoDup_fresh {A} (xs done rest : list (string * A)) k e :
  NoDup xs.*1 → xs = (done ++ (k, e) :: rest)%list →
  ∀ k' e', (k', e') ∈ done → k' ≠ k.
Proof.
  intros Hnd -> k' e' Hin ->. rewrite fmap_app, fmap_cons in Hnd.
  apply NoDup_app in Hnd as (_ & Hnd & _). apply (Hnd k).
  - apply list_elem_of_fmap. by exists (k, e').
  - apply elem_of_cons. by left.
Qed.

(** A successful bulk save: the list of the keys is in [dataset_dict.json],
    each entry is a table and is under the sub-directory of its key, and
    the files that were there, tables apart, are as before. *)
Lemma bulk_save_ok path self d d' :
  bulk_save path self d = (inr (), d') →
  files d' !! path_join path "dataset_dict.json"
    = Some (FJsonSplits (map_to_list self).*1) ∧
  (∀ k e, self !! k = Some e →
     ∃ ds, e = EDataset ds ∧ files d' !! path_join path k = Some (FTable ds)) ∧
  (∀ p f, p ≠ path_join path "dataset_dict.json" →
     files d !! p = Some f → ¬ is_table f → files d' !! p = Some f).
Proof.
  unfold bulk_save.
  intros ([] & d1 & Hdir & Hrest)%bind_inr_inv.
  apply bind_inr_inv in Hrest as ([] & d2 & Hopen & Hrest).
  apply bind_inr_inv in Hrest as ([] & d3 & Hsplits & Hloop).
  unfold modify in Hdir, Hsplits. injection Hdir as <-. injection Hsplits as <-.
  set (splits := path_join path "dataset_dict.json") in *.
  assert (d2 = with_file splits FEmpty (with_dir path d)) as ->.
  { unfold open_w in Hopen. fold splits in Hopen.
    destruct (decide _); [|done].
    destruct (files (with_dir path d) !! splits) as [[| | |]|]; by simplify_eq. }
  set (d0 := with_file splits (FJsonSplits (map_to_list self).*1) _) in Hloop.
  pose proof (for_each_inv
    (λ done dc,
       (∀ k e, (k, e) ∈ done →
          ∃ ds, e = EDataset ds ∧ files dc !! path_join path k = Some (FTable ds)) ∧
       (∀ p f, files d0 !! p = Some f → ¬ is_table f → files dc !! p = Some f))
    (λ _, True)
    (λ kv : string * @entry F,
       match kv.2 with
       | EDataset ds => table_save (path_join path kv.1) ds
       | EMetadata _ => raise TypeError
       end)
    (map_to_list self) d0) as Hinv.
  rewrite Hloop in Hinv. destruct Hinv as [Htables Hfiles].
  - split; [intros k e Hin; by apply elem_of_nil in Hin|done].
  - intros done [k e] rest dc Hxs [Hdone Hkeep]. simpl.
    destruct e as [ds|md]; [|done].
    destruct (table_save (path_join path k) ds dc) as [[e|[]] dc'] eqn:Hsave;
      [done|].
    apply table_save_ok in Hsave as [-> Hfree]. split.
    + intros k' e' [Hin|[= -> ->]]%elem_of_snoc.
      * destruct (Hdone k' e' Hin) as (ds' & -> & Hfile). exists ds'.
        split; [done|]. simpl. rewrite lookup_insert_ne; [done|].
        intros Heq%path_join_inj.
        by eapply (fst_NoDup_fresh (map_to_list self));
          [apply NoDup_fst_map_to_list|..].
      * exists ds. split; [done|]. simpl. by rewrite lookup_insert_eq.
    + intros p f Hp Hf. simpl. rewrite lookup_insert_ne; [by apply Hkeep|].
      intros <-. apply Hf, Hfree. by apply Hkeep.
  - split_and!.
    + apply Hfiles; [|by intros []]. unfold d0. simpl.
      by rewrite lookup_insert_eq.
    + intros k e Hk. apply (Htables k e). by apply elem_of_map_to_list.
    + intros p f Hp Hf Hnt. apply Hfiles; [|done]. unfold d0. simpl.
      by rewrite !lookup_insert_ne.
Qed.

Lemma load_splits_run path self (splits : list string) acc d :
  (∀ k, k ∈ splits →
     ∃ ds, self !! k = Some (EDataset ds) ∧
           files d !! path_join path k = Some (FTable ds)) →
  ∃ loaded,
    load_splits path splits acc d = (inr loaded, d) ∧
    ∀ k, (k ∈ splits → loaded !! k = self !! k) ∧
         (k ∉ splits → loaded !! k = acc !! k).
Proof.
  revert acc. induction splits as [|k splits IH]; intros acc Hall; simpl.
  - exists acc. split; [done|]. intros k. split; [|done].
    by intros Hin%elem_of_nil.
  - destruct (Hall k) as (ds & Hk & Hfile); [apply elem_of_cons; by left|].
    unfold bind, table_load. rewrite Hfile.
    destruct (IH (<[k := EDataset ds]> acc)) as (loaded & -> & Hloaded).
    { intros k' Hk'. apply Hall, elem_of_cons. by right. }
    exists loaded. split; [done|]. intros k'.
    destruct (Hloaded k') as [Hin Hnin]. split.
    + intros Hk'. destruct (decide (k' ∈ splits)) as [|Hout]; [auto|].
      apply elem_of_cons in Hk' as [->|]; [|done].
      by rewrite Hnin, lookup_insert_eq.
    + intros Hk'. rewrite Hnin, lookup_insert_ne; [done| |].
      * intros ->. apply Hk', elem_of_cons. by left.
      * intros ?. apply Hk', elem_of_cons. by right.
Qed.

(** C8: when [save_to_disk] returns, the metadata record of the store is in
    the file [metadata.json] of the directory, the list of keys that the
    bulk save wrote does not have the key [metadata], and
    [load_from_disk] on that directory returns the store that was saved,
    with the metadata record read from [metadata.json]. *)
Theorem save_load_metadata path data d data' d' :
  save_to_disk path (data, d) = (inr (), (data', d')) →
  ∃ md splits,
    data !! "metadata" = Some (EMetadata md) ∧
    files d' !! path_join path "metadata.json" = Some (FJsonMetadata md) ∧
    files d' !! path_join path "dataset_dict.json" = Some (FJsonSplits splits) ∧
    ("metadata" ∉ splits) ∧
    json_load (path_join path "metadata.json") d' = (inr md, d') ∧
    ∃ loaded,
      load_from_disk path d' = (inr loaded, d') ∧
      loaded !! "metadata" = Some (EMetadata md) ∧
      loaded = data.
Proof.
  intros (md & Hmd & Hdir & Hbulk & ->)%save_to_disk_ok.
  apply bulk_save_ok in Hbulk as (Hsplits & Htables & Hkeep).
  set (self := delete "metadata" data) in *.
  assert (files d' !! path_join path "metadata.json" = Some (FJsonMetadata md))
    as Hfile.
  { apply Hkeep; [by intros Heq%path_join_inj| |by intros []].
    simpl. by rewrite lookup_insert_eq. }
  exists md, (map_to_list self).*1. split_and!; [done..| | |].
  - intros ([k e] & Heq & Hin%elem_of_map_to_list)%list_elem_of_fmap.
    simpl in Heq. subst k. unfold self in Hin.
    by rewrite lookup_delete_eq in Hin.
  - unfold json_load. by rewrite Hfile.
  - destruct (load_splits_run path self (map_to_list self).*1 ∅ d')
      as (loaded & Hload & Hloaded).
    { intros k ([k' e] & Heq & Hin%elem_of_map_to_list)%list_elem_of_fmap.
      simpl in Heq. subst k'.
      destruct (Htables k e Hin) as (ds & -> & ?). by exists ds. }
    assert (loaded = self) as ->.
    { apply map_eq. intros k. destruct (Hloaded k) as [Hin Hnin].
      destruct (decide (k ∈ (map_to_list self).*1)) as [|Hout]; [auto|].
      rewrite (Hnin Hout), lookup_empty.
      destruct (self !! k) as [e|] eqn:Hk; [|done]. destruct Hout.
      apply list_elem_of_fmap. exists (k, e).
      split; [done|by apply elem_of_map_to_list]. }
    exists (<["metadata" := EMetadata md]> self).
    assert (<["metadata" := EMetadata md]> self = data) as Hback.
    { unfold self. rewrite insert_delete_eq. by apply insert_id. }
    split_and!; [|by rewrite lookup_insert_eq|done].
    unfold load_from_disk, bulk_load, bind, get. rewrite Hsplits, Hload.
    unfold json_load. by rewrite Hfile.
Qed.

End Persistence.

(** ** Persistence on the example store *)

Lemma local_labels_saved :
  ∃ data' d', save_to_disk partition_dir (local_labels, empty_dir)
              = (inr (), (data', d')).
Proof. eexists _, _. vm_compute. reflexivity. Defined.

Lemma save_load_metadata_witness :
  ∃ (d' : @disk R) loaded,
    load_from_disk partition_dir d' = (inr loaded, d') ∧
    loaded !! "metadata" = Some (EMetadata two_task_metadata).
Proof.
  destruct local_labels_saved as (data' & d' & Hsave).
  destruct (save_load_metadata _ _ _ _ _ Hsave)
    as (md & splits & Hmd & _ & _ & _ & _ & loaded & Hload & Hloaded & _).
  exists d', loaded. split; [done|].
  rewrite Hloaded.
  assert (local_labels !! "metadata" = Some (EMetadata two_task_metadata))
    as Hm by (vm_compute; reflexivity).
  congruence.
Defined.

Lemma save_to_disk_restores_store_witness :
  ∃ d', save_to_disk partition_dir (local_labels, empty_dir)
        = (inr (), (local_labels, d')).
Proof.
  destruct local_labels_saved as (data' & d' & Hsave).
  exists d'. by rewrite <-(save_to_disk_restores_store _ _ _ _ _ Hsave) at 2.
Defined.

(** ** The projection over the reals: the cosine bound

    In exact arithmetic every entry of the relative space lies in [-1, 1],
    by the Cauchy-Schwarz inequality; the clamp only shrinks an entry. The
    statement is about the real instance of the kernels and says nothing on
    how a floating-point backend rounds. *)







(** * Further properties of the code *)

(** ** The alignment check of the merge stage *)

Section MergeCheck.

Context {F : Type}.
Implicit Types data : gmap string (@entry F).

Lemma collect_holds data tasks mode dss :
  holds_tables data tasks mode dss → (collect tasks mode data).1 = inr dss.
Proof.
  induction 1 as [|i ds tasks dss Hds%table_of_Some _ IH]; [done|]. simpl.
  rewrite bind_readonly_fst by apply readonly_get_dataset.
  rewrite (get_dataset_run _ _ _ Hds). simpl.
  rewrite bind_readonly_fst by apply readonly_collect. by rewrite IH.
Qed.

Lemma concatenate_from_projected (acc : @Dataset F) dss :
  has_relative acc → Forall has_relative dss →
  ∃ merged, concatenate_from acc dss = inr merged.
Proof.
  intros Hacc Hall. revert acc Hacc.
  induction Hall as [|ds dss [r Hr] _ IH]; intros acc [ra Hra]; simpl.
  - by eexists.
  - unfold append_datasets. rewrite Hra, Hr. apply IH. by eexists.
Qed.

Lemma concatenate_projected (dss : list (@Dataset F)) :
  dss ≠ [] → Forall has_relative dss →
  ∃ merged, concatenate_datasets dss = inr merged ∧
            ds_id merged = concat (ds_id <$> dss).
Proof.
  destruct dss as [|ds dss]; [done|]. intros _ Hall.
  apply Forall_cons in Hall as [Hds Hall].
  destruct (concatenate_from_projected ds dss Hds Hall) as [merged Hm].
  exists merged. split; [done|]. by apply concatenate_datasets_ids.
Qed.

(** With the splits in the store and the column everywhere, the stage
    returns exactly when the assertion on the sorted test ids passes. *)
Lemma merge_returns_iff_check data n trains tests otrain otest :
  1 ≤ n →
  holds_tables data (range 1 (n + 1)) "train" trains →
  holds_tables data (range 1 (n + 1)) "test" tests →
  Forall has_relative trains → Forall has_relative tests →
  table_of data (task_key 0 "train") = Some otrain →
  table_of data (task_key 0 "test") = Some otest →
  ∃ merged_test : @Dataset F,
    ds_id merged_test = concat (ds_id <$> tests) ∧
    ((∃ m, (merge_stage n data).1 = inr m) ↔
     assert_all_eq (ds_id (sort_by_id merged_test)) (ds_id (sort_by_id otest))
       = inr ()).
Proof.
  intros Hn Htrains Htests Hrtr Hrte Hotr%table_of_Some Hote%table_of_Some.
  assert (∀ mode dss, holds_tables data (range 1 (n + 1)) mode dss → dss ≠ [])
    as Hne.
  { intros mode dss Hh ->. apply Forall2_length in Hh. unfold range in Hh.
    rewrite length_seq in Hh. simpl in Hh. lia. }
  destruct (concatenate_projected trains (Hne _ _ Htrains) Hrtr) as (mtr & Hmtr & _).
  destruct (concatenate_projected tests (Hne _ _ Htests) Hrte) as (mte & Hmte & Hids).
  exists mte. split; [done|].
  rewrite merge_stage_outcome, (collect_holds _ _ _ _ Htrains),
    (collect_holds _ _ _ _ Htests), (get_dataset_run _ _ _ Hotr),
    (get_dataset_run _ _ _ Hote).
  unfold merge_outcome. rewrite Hmtr, Hmte. simpl.
  destruct (assert_all_eq _ _) as [e|[]]; split; try done.
  - by intros [m ?].
  - intros _. by eexists.
Qed.

Lemma sorted_ids_eq_iff (a b : @Dataset F) :
  ds_id (sort_by_id a) = ds_id (sort_by_id b) ↔ ds_id a ≡ₚ ds_id b.
Proof.
  split.
  - intros Heq. by rewrite <-(sort_by_id_perm a), Heq, sort_by_id_perm.
  - intros Hp. apply (Sorted_unique Z.le); [apply sort_by_id_sorted..|].
    by rewrite !sort_by_id_perm.
Qed.

Lemma sort_by_id_length (a : @Dataset F) :
  length (ds_id (sort_by_id a)) = length (ds_id a).
Proof. apply Permutation_length, sort_by_id_perm. Qed.

(** X1: when the splits are in the store with the column everywhere and the
    sizes of the two id tensors do not broadcast, the merge stage returns
    iff the test ids of the tasks 1..num_tasks, taken together, are the
    test ids of task 0 up to order, each as many times. *)
Theorem merge_returns_iff_same_test_ids data n trains tests otrain otest :
  1 ≤ n →
  holds_tables data (range 1 (n + 1)) "train" trains →
  holds_tables data (range 1 (n + 1)) "test" tests →
  Forall has_relative trains → Forall has_relative tests →
  table_of data (task_key 0 "train") = Some otrain →
  table_of data (task_key 0 "test") = Some otest →
  ¬ broadcasts (concat (ds_id <$> tests)) (ds_id otest) →
  (∃ m, (merge_stage n data).1 = inr m) ↔
  concat (ds_id <$> tests) ≡ₚ ds_id otest.
Proof.
  intros Hn Htr Hte Hrtr Hrte Hotr Hote Hnb.
  destruct (merge_returns_iff_check data n trains tests otrain otest)
    as (mte & Hids & ->); [done..|].
  rewrite <-Hids in *. rewrite <-sorted_ids_eq_iff.
  destruct (assert_all_eq_cases (ds_id (sort_by_id mte)) (ds_id (sort_by_id otest)))
    as [[Heq Hok]|[(Hne & _ & Herr)|[Hlen Herr]]].
  - unfold broadcasts. by rewrite !sort_by_id_length.
  - done.
  - rewrite Herr. split; [done|]. by intros ?.
  - rewrite Herr. split; [done|]. intros Heq. by rewrite Heq in Hlen.
Qed.

Lemma assert_all_eq_one_r (a : list Z) (x : Z) :
  assert_all_eq a [x] = inr () ↔ Forall (λ i, i = x) a.
Proof.
  unfold assert_all_eq, torch_eq.
  destruct a as [|y [|y' a]]; [simpl..|].
  - split; [by constructor|done].
  - destruct (Z.eqb_spec y x) as [->|Hne]; simpl.
    + split; [by repeat constructor|done].
    + split; [done|]. by inversion 1.
  - assert (torch_all (map (λ e, Z.eqb e x) (y :: y' :: a)) = true
            ↔ Forall (λ i, i = x) (y :: y' :: a)) as Hall.
    { generalize (y :: y' :: a). intros l. induction l as [|z l IH]; simpl.
      - split; [by constructor|done].
      - rewrite andb_true_iff, Z.eqb_eq, IH, Forall_cons. done. }
    unfold torch_all in *. simpl in Hall |- *.
    destruct (_ && _); split; try done.
    + intros _. by apply Hall.
    + intros Hf. by apply Hall in Hf.
Qed.

(** X2: when the reference test split has exactly one row, of id [x], the
    merge stage returns iff every test id of the tasks 1..num_tasks is [x],
    however many such rows there are; the single id is compared with each
    of them. *)
Theorem merge_one_row_reference data n trains tests otrain otest (x : Z) :
  1 ≤ n →
  holds_tables data (range 1 (n + 1)) "train" trains →
  holds_tables data (range 1 (n + 1)) "test" tests →
  Forall has_relative trains → Forall has_relative tests →
  table_of data (task_key 0 "train") = Some otrain →
  table_of data (task_key 0 "test") = Some otest →
  ds_id otest = [x] →
  (∃ m, (merge_stage n data).1 = inr m) ↔
  Forall (λ i, i = x) (concat (ds_id <$> tests)).
Proof.
  intros Hn Htr Hte Hrtr Hrte Hotr Hote Hx.
  destruct (merge_returns_iff_check data n trains tests otrain otest)
    as (mte & Hids & ->); [done..|].
  rewrite <-Hids.
  assert (ds_id (sort_by_id otest) = [x]) as ->.
  { apply Permutation_singleton_r. by rewrite sort_by_id_perm, Hx. }
  rewrite assert_all_eq_one_r. by rewrite sort_by_id_perm.
Qed.

End MergeCheck.

Lemma merge_returns_iff_same_test_ids_witness :
  (∃ m, (merge_stage 2 merge_scenario).1 = inr m) ↔
  [2; 1; 4; 3]%Z ≡ₚ [4; 3; 2; 1]%Z.
Proof.
  apply (merge_returns_iff_same_test_ids merge_scenario 2
           [rows_with_ids [11]%Z; rows_with_ids [10]%Z]
           [rows_with_ids [2; 1]%Z; rows_with_ids [4; 3]%Z]
           (rows_with_ids [100; 10; 101; 11; 102]%Z)
           (rows_with_ids [4; 3; 2; 1]%Z)).
  - lia.
  - repeat constructor; vm_compute; reflexivity.
  - repeat constructor; vm_compute; reflexivity.
  - repeat constructor; by eexists.
  - repeat constructor; by eexists.
  - vm_compute; reflexivity.
  - vm_compute; reflexivity.
  - intros [Hne _]. by apply Hne.
Defined.

Lemma merge_one_row_reference_witness :
  (∃ m, (merge_stage 2 test_sample_duplicated).1 = inr m) ↔
  Forall (λ i, i = 5%Z) [5; 5]%Z.
Proof.
  apply (merge_one_row_reference test_sample_duplicated 2
           [rows_with_ids [11]%Z; rows_with_ids [10]%Z]
           [rows_with_ids [5]%Z; rows_with_ids [5]%Z]
           (rows_with_ids [10; 11]%Z) (rows_with_ids [5]%Z) 5%Z).
  - lia.
  - repeat constructor; vm_compute; reflexivity.
  - repeat constructor; vm_compute; reflexivity.
  - repeat constructor; by eexists.
  - repeat constructor; by eexists.
  - vm_compute; reflexivity.
  - vm_compute; reflexivity.
  - reflexivity.
Defined.

(** ** Sorting keeps the rows *)

Section SortRows.

Context {F : Type}.
Implicit Types ds : @Dataset F.

Lemma argsort_perm (ids : list Z) : argsort ids ≡ₚ seq 0 (length ids).
Proof.
  unfold argsort. rewrite merge_sort_Permutation.
  rewrite fst_zip; [done|]. by rewrite length_seq.
Qed.

Lemma argsort_bound (ids : list Z) :
  Forall (λ i, i < length ids) (argsort ids).
Proof.
  rewrite argsort_perm. apply Forall_forall. intros i Hi.
  apply elem_of_seq in Hi. lia.
Qed.

Lemma take_rows_lookup {A} (col : list A) (indices : list nat) (r : nat) :
  Forall (λ i, i < length col) indices →
  take_rows indices col !! r = indices !! r ≫= (λ i, col !! i).
Proof.
  unfold take_rows. intros Hall. revert r.
  induction Hall as [|i indices Hi _ IH]; intros r; [done|].
  apply lookup_lt_is_Some in Hi as [x Hx]. csimpl. rewrite Hx. csimpl.
  destruct r as [|r]; simpl; [by rewrite Hx|apply IH].
Qed.

Lemma take_rows_length {A} (col : list A) (indices : list nat) :
  Forall (λ i, i < length col) indices →
  length (take_rows indices col) = length indices.
Proof.
  unfold take_rows. induction 1 as [|i indices Hi _ IH]; [done|].
  apply lookup_lt_is_Some in Hi as [x Hx]. csimpl. rewrite Hx. csimpl.
  by rewrite IH.
Qed.

Lemma sort_by_id_len ds : ds_len (sort_by_id ds) = ds_len ds.
Proof. apply Permutation_length, sort_by_id_perm. Qed.

Lemma sort_by_id_wf ds : wf_dataset ds → wf_dataset (sort_by_id ds).
Proof.
  intros (Hemb & Hy & Hrel). unfold wf_dataset. rewrite sort_by_id_len.
  pose proof (argsort_bound (ds_id ds)) as Hb.
  pose proof (Permutation_length (argsort_perm (ds_id ds))) as Hl.
  rewrite length_seq in Hl. unfold ds_len in *. simpl.
  split_and!.
  - rewrite take_rows_length; [done|]. by rewrite Hemb.
  - rewrite take_rows_length; [done|]. by rewrite Hy.
  - destruct (ds_relative_embeddings ds) as [rel|]; [|done]. simpl.
    rewrite take_rows_length; [done|]. by rewrite Hrel.
Qed.

Lemma sort_by_id_row ds (r i : nat) :
  wf_dataset ds → argsort (ds_id ds) !! r = Some i →
  ds_row (sort_by_id ds) r = ds_row ds i.
Proof.
  intros (Hemb & Hy & Hrel) Hi.
  pose proof (argsort_bound (ds_id ds)) as Hb. unfold ds_len in *.
  unfold ds_row, sort_by_id. simpl.
  rewrite !take_rows_lookup, Hi by (by rewrite ?Hemb, ?Hy). simpl.
  destruct (ds_relative_embeddings ds) as [rel|]; [|done]. simpl.
  rewrite take_rows_lookup, Hi by (by rewrite Hrel). done.
Qed.

Lemma sort_by_id_rows_argsort ds :
  wf_dataset ds → ds_rows (sort_by_id ds) = ds_row ds <$> argsort (ds_id ds).
Proof.
  intros Hwf. unfold ds_rows. rewrite sort_by_id_len.
  pose proof (Permutation_length (argsort_perm (ds_id ds))) as Hl.
  rewrite length_seq in Hl. fold (ds_len ds) in Hl.
  apply list_eq. intros r. rewrite !list_lookup_fmap.
  destruct (decide (r < ds_len ds)) as [Hr|Hr].
  - rewrite lookup_seq_lt by done. simpl.
    destruct (lookup_lt_is_Some_2 (argsort (ds_id ds)) r) as [i Hi]; [lia|].
    rewrite Hi. simpl. f_equal. by apply sort_by_id_row.
  - rewrite lookup_seq_ge by lia.
    rewrite (lookup_ge_None_2 (argsort (ds_id ds)) r) by lia. done.
Qed.

(** X3: sorting a table whose columns have one length by id rearranges whole
    rows: the result has columns of one length again, its rows are the rows
    of the input up to order, each as many times, and its ids ascend. *)
Theorem sort_by_id_rearranges_rows ds :
  wf_dataset ds →
  wf_dataset (sort_by_id ds) ∧
  ds_rows (sort_by_id ds) ≡ₚ ds_rows ds ∧
  Sorted Z.le (ds_id (sort_by_id ds)).
Proof.
  intros Hwf. split_and!.
  - by apply sort_by_id_wf.
  - rewrite sort_by_id_rows_argsort by done. unfold ds_rows.
    by rewrite argsort_perm.
  - apply sort_by_id_sorted.
Qed.

End SortRows.

Lemma sort_by_id_rearranges_rows_witness :
  wf_dataset (rows_with_ids [4; 3; 2; 1]%Z) ∧
  ds_rows (sort_by_id (rows_with_ids [4; 3; 2; 1]%Z)) ≡ₚ
    ds_rows (rows_with_ids [4; 3; 2; 1]%Z).
Proof.
  assert (wf_dataset (rows_with_ids [4; 3; 2; 1]%Z)) as Hwf by (by vm_compute).
  split; [done|]. apply (sort_by_id_rearranges_rows _ Hwf).
Defined.

(** ** What a stage leaves alone, whether it returns or raises *)

Section Frames.

Context {F : Type}.
Implicit Types data : gmap string (@entry F).
Implicit Types keys : string → Prop.

Lemma writes_within_readonly {A} keys (m : M (gmap string (@entry F)) A) :
  readonly m → writes_within keys m.
Proof. intros Hm data k _. by rewrite Hm. Qed.

Lemma writes_within_bind {A B} keys (m : M (gmap string (@entry F)) A)
    (k : A → M (gmap string (@entry F)) B) :
  writes_within keys m → (∀ a, writes_within keys (k a)) →
  writes_within keys (bind m k).
Proof.
  intros Hm Hk data key Hkey. unfold bind. specialize (Hm data key Hkey).
  destruct (m data) as [[e|a] data']; simpl in *; [done|].
  by rewrite (Hk a data' key Hkey).
Qed.

Lemma writes_within_for_each {A} keys (xs : list A)
    (body : A → M (gmap string (@entry F)) unit) :
  (∀ x, x ∈ xs → writes_within keys (body x)) →
  writes_within keys (for_each xs body).
Proof.
  induction xs as [|x xs IH]; intros Hb; simpl.
  - apply writes_within_readonly, readonly_ret.
  - apply writes_within_bind.
    + apply Hb. by left.
    + intros _. apply IH. intros y Hy. apply Hb. by right.
Qed.

Lemma writes_within_setitem keys (k : string) (v : @entry F) :
  keys k → writes_within keys (setitem k v).
Proof.
  intros Hk data key Hkey. unfold setitem, modify. simpl.
  apply lookup_insert_ne. by intros ->.
Qed.

End Frames.

Lemma relabel_writes_within {F} (py_int : string → option Z) (n : nat) :
  writes_within (F:=F) (relabel_keys n) (map_labels_to_global py_int n).
Proof.
  apply writes_within_for_each. intros i Hi%elem_of_range.
  apply writes_within_bind;
    [apply writes_within_readonly, readonly_bind;
       [apply readonly_getitem|intros []; [apply readonly_raise|apply readonly_ret]]
    |intros md].
  apply writes_within_bind; [apply writes_within_readonly, readonly_lift|intros items].
  apply writes_within_bind; [apply writes_within_readonly, readonly_lift|intros m].
  apply writes_within_for_each. intros mode Hmode.
  apply writes_within_bind;
    [apply writes_within_readonly, readonly_get_dataset|intros ds].
  apply writes_within_bind; [apply writes_within_readonly, readonly_lift|intros ds'].
  apply writes_within_setitem. exists i, mode. split_and!; [lia..|done|done].
Qed.

(** X4: whether label reconciliation returns or raises, it leaves the store
    as it was outside the splits train, val, test of the tasks 1..num_tasks:
    the metadata, every split of task 0 and the anchor splits of all tasks
    are never assigned to. *)
Theorem map_labels_to_global_frame {F} (py_int : string → option Z)
    (n : nat) (data : gmap string (@entry F)) (k : string) :
  k = "metadata" ∨
  (∃ mode, k = task_key 0 mode) ∨
  (∃ i, k = task_key i "anchors") ∨
  (∀ i mode, 1 ≤ i ≤ n → mode ∈ label_modes → k ≠ task_key i mode) →
  (map_labels_to_global py_int n data).2 !! k = data !! k.
Proof.
  intros Hk. apply relabel_writes_within.
  intros (i & mode & Hi & Hmode & ->).
  destruct Hk as [Hk|[[mode' Hk]|[[j Hk]|Hk]]].
  - by apply task_key_ne_metadata in Hk.
  - apply task_key_inj in Hk as [-> _]. lia.
  - apply task_key_inj in Hk as [_ ->].
    by repeat (apply elem_of_cons in Hmode as [?|Hmode]; [done|]);
      apply elem_of_nil in Hmode.
  - by apply (Hk i mode).
Qed.

Lemma map_labels_to_global_frame_witness :
  (map_labels_to_global parse_decimal 2 local_labels_unmapped).2 !! "metadata"
  = local_labels_unmapped !! "metadata".
Proof. apply map_labels_to_global_frame. by left. Defined.

Lemma projection_writes_within {F} `{TensorOps F} (n : nat) :
  writes_within (F:=F) (projection_keys n) (map_to_relative n).
Proof.
  apply writes_within_for_each. intros i Hi%elem_of_range.
  apply writes_within_bind;
    [apply writes_within_readonly, readonly_get_dataset|intros anchors].
  apply writes_within_for_each. intros mode Hmode.
  apply writes_within_bind;
    [apply writes_within_readonly, readonly_get_dataset|intros ds].
  apply writes_within_bind; [apply writes_within_readonly, readonly_lift|intros rel].
  apply writes_within_bind;
    [apply writes_within_readonly, readonly_get_dataset|intros ds2].
  apply writes_within_bind; [apply writes_within_readonly, readonly_lift|intros ds'].
  apply writes_within_setitem. exists i, mode. split_and!; [lia|done|done].
Qed.

(** X5: whether the projection returns or raises, it leaves the store as it
    was outside the splits train and test of the tasks 0..num_tasks: the
    anchor splits it reads, the val splits and the metadata are never
    assigned to. *)
Theorem map_to_relative_frame {F} `{TensorOps F}
    (n : nat) (data : gmap string (@entry F)) (k : string) :
  k = "metadata" ∨
  (∃ i, k = task_key i "anchors") ∨
  (∃ i, k = task_key i "val") ∨
  (∀ i mode, i ≤ n → mode ∈ projection_modes → k ≠ task_key i mode) →
  (map_to_relative n data).2 !! k = data !! k.
Proof.
  intros Hk. apply projection_writes_within.
  intros (i & mode & Hi & Hmode & ->).
  destruct Hk as [Hk|[[j Hk]|[[j Hk]|Hk]]].
  - by apply task_key_ne_metadata in Hk.
  - apply task_key_inj in Hk as [_ ->].
    by repeat (apply elem_of_cons in Hmode as [?|Hmode]; [done|]);
      apply elem_of_nil in Hmode.
  - apply task_key_inj in Hk as [_ ->].
    by repeat (apply elem_of_cons in Hmode as [?|Hmode]; [done|]);
      apply elem_of_nil in Hmode.
  - by apply (Hk i mode).
Qed.

Lemma map_to_relative_frame_witness :
  (map_to_relative 2 anchors_agree).2 !! task_key 1 "anchors"
  = anchors_agree !! task_key 1 "anchors".
Proof. apply map_to_relative_frame. right; left. by exists 1. Defined.

(** ** The store that a failed label reconciliation leaves behind *)

Lemma for_each_app {S A} (xs ys : list A) (body : A → M S unit) (s : S) :
  for_each (xs ++ ys)%list body s =
  match for_each xs body s with
  | (inr _, s') => for_each ys body s'
  | (inl e, s') => (inl e, s')
  end.
Proof.
  revert s. induction xs as [|x xs IH]; intros s; [done|].
  simpl. unfold bind. destruct (body x s) as [[e|[]] s']; [done|apply IH].
Qed.

(** A loop raises exactly when a round raises after the rounds before it
    have returned; the state is the one that round leaves. *)
Lemma for_each_raises {S A} (xs : list A) (body : A → M S unit) (s s' : S) e :
  for_each xs body s = (inl e, s') ↔
  ∃ done x rest s1,
    xs = (done ++ x :: rest)%list ∧
    for_each done body s = (inr (), s1) ∧ body x s1 = (inl e, s').
Proof.
  split.
  - revert s. induction xs as [|x xs IH]; intros s; [done|].
    simpl. unfold bind. destruct (body x s) as [[e'|[]] s1] eqn:Hx.
    + intros [= -> ->]. by exists [], x, xs, s.
    + intros (done & y & rest & s2 & -> & Hdone & Hy)%IH.
      exists (x :: done), y, rest, s2. split_and!; [done| |done].
      simpl. unfold bind. by rewrite Hx.
  - intros (done & x & rest & s1 & -> & Hdone & Hx).
    rewrite for_each_app, Hdone. simpl. unfold bind. by rewrite Hx.
Qed.

Lemma range_split a b done x rest :
  range a b = (done ++ x :: rest)%list →
  done = range a x ∧ a ≤ x < b.
Proof.
  unfold range. intros Heq.
  assert (seq a (b - a) !! length done = Some x) as Hx.
  { rewrite Heq. by apply list_lookup_middle. }
  apply lookup_seq in Hx as [-> Hlt].
  split; [|lia].
  replace (a + length done - a) with (length done) by lia.
  transitivity (take (length done) (seq a (b - a))).
  - rewrite Heq. by rewrite take_app_length.
  - rewrite take_seq. f_equal. lia.
Qed.

Section LabelsFailure.

Context {F : Type}.
Variable py_int : string → option Z.
Implicit Types data s : gmap string (@entry F).

(** The inner loop on any list of distinct splits that the store holds. *)
Lemma relabel_modes_run_on s i (m : gmap Z Z) (modes : list string) :
  NoDup modes →
  (∀ mode, mode ∈ modes → is_Some (table_of s (task_key i mode))) →
  match for_each modes (relabel_mode m i) s with
  | (inr _, s') =>
      (∀ mode, mode ∈ modes →
         ∃ ds ds', table_of s (task_key i mode) = Some ds ∧
                   table_of s' (task_key i mode) = Some ds' ∧
                   relabeled m ds ds') ∧
      (∀ k, (∀ mode, mode ∈ modes → k ≠ task_key i mode) → s' !! k = s !! k)
  | (inl e, _) => True
  end.
Proof.
  intros Hnd Htab.
  pose proof (for_each_inv
    (λ done s',
       (∀ mode, mode ∈ done →
          ∃ ds ds', table_of s (task_key i mode) = Some ds ∧
                    table_of s' (task_key i mode) = Some ds' ∧
                    relabeled m ds ds') ∧
       (∀ k, (∀ mode, mode ∈ done → k ≠ task_key i mode) → s' !! k = s !! k))
    (λ _, True) (relabel_mode m i) modes s) as Hinv.
  apply Hinv; clear Hinv.
  - split; [intros mode Hm; by apply elem_of_nil in Hm|done].
  - intros done x rest s' Hxs [Hdone Hframe].
    destruct (split_fresh _ _ _ _ Hnd Hxs) as [Hx Hfresh].
    destruct (Htab x Hx) as [ds Hds].
    assert (table_of s' (task_key i x) = Some ds) as Hds'.
    { unfold table_of. rewrite Hframe; [by apply table_of_Some in Hds as ->|].
      intros mode Hmode Heq. apply task_key_inj in Heq as [_ ->]. done. }
    rewrite (relabel_mode_run _ _ _ _ _ Hds').
    destruct (map_labels m ds) as [e|ds2] eqn:Hmap; [done|].
    apply map_labels_inr in Hmap. split.
    + intros mode [Hmode| ->]%elem_of_snoc.
      * destruct (Hdone mode Hmode) as (d & d' & Hd & Hd' & Hrel).
        exists d, d'. split_and!; [done| |done].
        unfold table_of. rewrite lookup_insert_ne; [done|].
        intros Heq. apply task_key_inj in Heq as [_ ->]. done.
      * exists ds, ds2. split_and!; [done| |done].
        unfold table_of. by rewrite lookup_insert_eq.
    + intros k Hk. rewrite lookup_insert_ne.
      * apply Hframe. intros mode Hmode. apply Hk, elem_of_snoc. by left.
      * intros Heq. apply (Hk x); [apply elem_of_snoc; by right|done].
Qed.

(** X6: a label reconciliation that raises is not rolled back. On a store
    fit for reconciliation, an exception comes from one split [mode_f] of one
    task [t]; in the store left behind, the splits of the tasks before [t]
    and the splits of [t] before [mode_f] hold global labels, and every
    other entry, the failing split and all later ones included, is as it
    was. *)
Theorem map_labels_to_global_no_rollback data md (n : nat) e data' :
  labels_wf py_int data md n →
  map_labels_to_global py_int n data = (inl e, data') →
  ∃ t before mode_f after,
    1 ≤ t ≤ n ∧ label_modes = (before ++ mode_f :: after)%list ∧
    (∀ i mode, relabelled_before t before i mode →
       ∃ ds ds' m, table_of data (task_key i mode) = Some ds ∧
                   table_of data' (task_key i mode) = Some ds' ∧
                   local_to_global py_int md i = Some m ∧
                   relabeled m ds ds') ∧
    (∀ k, (∀ i mode, relabelled_before t before i mode → k ≠ task_key i mode) →
          data' !! k = data !! k).
Proof.
  intros Hwf Hrun. pose proof Hwf as (Hmd & Hmaps & Htabs).
  change (map_labels_to_global py_int n data) with
    (for_each (range 1 (n + 1)) (relabel_task py_int) data) in Hrun.
  apply for_each_raises in Hrun as (done & t & rest & s1 & Hsplit & Hdone & Ht).
  apply range_split in Hsplit as [-> Hrange].
  (* the tasks before t *)
  assert (labels_wf py_int data md (t - 1)) as Hwf1.
  { split_and!; [done| |].
    - intros i Hi. apply Hmaps. lia.
    - intros i mode Hi Hmode. apply Htabs; [lia|done]. }
  pose proof (map_labels_to_global_run py_int data md (t - 1) Hwf1) as Hpre.
  change (map_labels_to_global py_int (t - 1) data) with
    (for_each (range 1 (t - 1 + 1)) (relabel_task py_int) data) in Hpre.
  replace (t - 1 + 1) with t in Hpre by lia.
  rewrite Hdone in Hpre. destruct Hpre as [Hnew1 Hframe1].
  assert (∀ mode, s1 !! task_key t mode = data !! task_key t mode) as Hsame.
  { intros mode. apply Hframe1. intros i mode' Hi _ Heq.
    apply task_key_inj in Heq as [-> _]. lia. }
  (* the task t *)
  destruct (Hmaps t ltac:(lia)) as [m Hm].
  rewrite (relabel_task_run py_int s1 md t m) in Ht; [|rewrite <-Hmd; apply Hframe1|done].
  2:{ intros i mode _ _ Heq. symmetry in Heq.
      by apply task_key_ne_metadata in Heq. }
  apply for_each_raises in Ht as (before & mode_f & after & s2 & Hmodes & Hbefore & Hf).
  assert (NoDup (before ++ mode_f :: after)%list) as Hnd
    by (rewrite <-Hmodes; apply label_modes_NoDup).
  assert (∀ mode, mode ∈ before → mode ∈ label_modes) as Hin.
  { intros mode Hmode. rewrite Hmodes. apply elem_of_app. by left. }
  assert (mode_f ∈ label_modes) as Hinf.
  { rewrite Hmodes. apply elem_of_app. right. by left. }
  pose proof (relabel_modes_run_on s1 t m before) as Hinner.
  rewrite Hbefore in Hinner. destruct Hinner as [Hnew2 Hframe2].
  { by apply NoDup_app in Hnd as (? & _ & _). }
  { intros mode Hmode. unfold table_of. rewrite Hsame.
    apply (Htabs t mode); [lia|by apply Hin]. }
  assert (s2 !! task_key t mode_f = data !! task_key t mode_f) as Hsamef.
  { rewrite Hframe2; [apply Hsame|]. intros mode Hmode Heq.
    apply task_key_inj in Heq as [_ ->].
    apply NoDup_app in Hnd as (_ & Hnd & _). apply (Hnd _ Hmode). by left. }
  destruct (Htabs t mode_f ltac:(lia) Hinf) as [dsf Hdsf].
  assert (table_of s2 (task_key t mode_f) = Some dsf) as Hdsf2.
  { unfold table_of in *. by rewrite Hsamef. }
  rewrite (relabel_mode_run _ _ _ _ _ Hdsf2) in Hf.
  destruct (map_labels m dsf) as [e'|ds'] eqn:Hmap; [|done].
  injection Hf as -> ->.
  exists t, before, mode_f, after. split_and!; [lia..|done| |].
  - intros i mode [[Hi Hmode]|[-> Hmode]].
    + destruct (Hnew1 i mode ltac:(lia) Hmode) as (ds & ds1 & m1 & Hds & Hds1 & Hm1 & Hrel).
      exists ds, ds1, m1. split_and!; [done| |done..].
      unfold table_of in *. rewrite Hframe2; [done|].
      intros mode' _ Heq. apply task_key_inj in Heq as [-> _]. lia.
    + destruct (Hnew2 mode Hmode) as (ds & ds2 & Hds & Hds2 & Hrel).
      exists ds, ds2, m. split_and!; [|done..].
      unfold table_of in *. by rewrite <-Hsame.
  - intros k Hk. rewrite Hframe2.
    + apply Hframe1. intros i mode Hi Hmode. apply Hk. left. split; [lia|done].
    + intros mode Hmode. apply Hk. by right.
Qed.

End LabelsFailure.

Lemma map_labels_to_global_no_rollback_witness :
  ∃ e data',
    map_labels_to_global parse_decimal 2 local_labels_unmapped = (inl e, data') ∧
    ∃ t before mode_f after,
      1 ≤ t ≤ 2 ∧ label_modes = (before ++ mode_f :: after)%list ∧
      (∀ i mode, relabelled_before t before i mode →
         ∃ ds ds' m,
           table_of local_labels_unmapped (task_key i mode) = Some ds ∧
           table_of data' (task_key i mode) = Some ds' ∧
           local_to_global parse_decimal two_task_metadata i = Some m ∧
           relabeled m ds ds') ∧
      (∀ k, (∀ i mode, relabelled_before t before i mode → k ≠ task_key i mode) →
            data' !! k = local_labels_unmapped !! k).
Proof.
  assert ((map_labels_to_global parse_decimal 2 local_labels_unmapped).1
          = inl (KeyError (KInt 2))) as Hexn by (vm_compute; reflexivity).
  destruct (map_labels_to_global parse_decimal 2 local_labels_unmapped)
    as [[e|[]] data'] eqn:Hrun; [|discriminate Hexn].
  exists e, data'. split; [done|].
  apply (map_labels_to_global_no_rollback parse_decimal local_labels_unmapped
           two_task_metadata 2 e data'); [|done].
  apply local_labels_wf. by right.
Defined.

(** ** Inverting a mapping that is not one to one *)

Section Inversion.

Variable py_int : string → option Z.

Lemma invert_items_app items1 items2 acc :
  invert_items py_int (items1 ++ items2)%list acc =
  match invert_items py_int items1 acc with
  | inr acc' => invert_items py_int items2 acc'
  | inl e => inl e
  end.
Proof.
  revert acc. induction items1 as [|[k v] items1 IH]; intros acc; simpl; [done|].
  destruct (py_int k); [apply IH|done].
Qed.

Lemma invert_items_other items acc m l :
  invert_items py_int items acc = inr m → l ∉ items.*2 → m !! l = acc !! l.
Proof.
  revert acc. induction items as [|[k v] items IH]; intros acc; simpl.
  - by intros [= ->].
  - destruct (py_int k) as [g|]; [|done]. intros Hinv Hl.
    apply not_elem_of_cons in Hl as [Hne Hl].
    rewrite (IH _ Hinv Hl). by apply lookup_insert_ne.
Qed.

(** X7: the inversion [{v: int(k) for k, v in items}] keeps, for each local
    label, the last item that has it: when two global labels are mapped to
    one local label, the inverted map sends the local label to the later
    one; a local label of no item is no key; and the inversion raises on the
    first key that is no numeral. *)
Theorem invert_items_last_wins items :
  match invert_items py_int items ∅ with
  | inr m =>
      (∀ pre k l post, items = (pre ++ (k, l) :: post)%list → l ∉ post.*2 →
         ∃ g, py_int k = Some g ∧ m !! l = Some g) ∧
      (∀ l, l ∉ items.*2 → m !! l = None)
  | inl e =>
      ∃ pre k l post, items = (pre ++ (k, l) :: post)%list ∧
        Forall (λ kv, is_Some (py_int kv.1)) pre ∧
        py_int k = None ∧ e = ValueError k
  end.
Proof.
  destruct (invert_items py_int items ∅) as [e|m] eqn:Hinv.
  - revert Hinv. generalize (∅ : gmap Z Z).
    induction items as [|[k v] items IH]; intros acc; simpl; [done|].
    destruct (py_int k) as [g|] eqn:Hk.
    + intros (pre & k' & l & post & -> & Hpre & Hk' & ->)%IH.
      exists ((k, v) :: pre), k', l, post. split_and!; [done| |done..].
      constructor; [by exists g|done].
    + intros [= <-]. by exists [], k, v, items.
  - split.
    + intros pre k l post -> Hl. rewrite invert_items_app in Hinv.
      destruct (invert_items py_int pre ∅) as [e|acc]; [done|].
      simpl in Hinv. destruct (py_int k) as [g|]; [|done].
      exists g. split; [done|].
      rewrite (invert_items_other _ _ _ _ Hinv Hl). apply lookup_insert_eq.
    + intros l Hl. by rewrite (invert_items_other _ _ _ _ Hinv Hl).
Qed.

End Inversion.

(** ** Failures of [save_to_disk], and what [load_from_disk] reads *)

Lemma bind_keeps {S A B} (I : S → Prop) (m : M S A) (k : A → M S B) :
  (∀ s, I s → I (m s).2) → (∀ a s, I s → I (k a s).2) →
  ∀ s, I s → I (bind m k s).2.
Proof.
  intros Hm Hk s Hs. unfold bind. specialize (Hm s Hs).
  destruct (m s) as [[e|a] s']; simpl in *; [done|by apply Hk].
Qed.

Lemma for_each_keeps {S A} (I : S → Prop) (xs : list A) (body : A → M S unit) :
  (∀ x s, I s → I (body x s).2) → ∀ s, I s → I (for_each xs body s).2.
Proof.
  intros Hb. induction xs as [|x xs IH]; intros s Hs; simpl; [done|].
  apply bind_keeps; [apply Hb|intros _; apply IH|done].
Qed.

Section PersistenceFailures.

Context {F : Type}.
Implicit Types data : gmap string (@entry F).
Implicit Types d : @disk F.

(** Whether the bulk save returns or raises, a file that is no table and is
    not [dataset_dict.json] is as before. *)
Lemma bulk_save_keeps_file path data d p f :
  p ≠ path_join path "dataset_dict.json" → ¬ is_table f →
  files d !! p = Some f →
  files (bulk_save path data d).2 !! p = Some f.
Proof.
  intros Hp Hf. revert d. unfold bulk_save.
  apply (bind_keeps (λ d, files d !! p = Some f)); [done|intros _].
  apply (bind_keeps (λ d, files d !! p = Some f)); [|intros _].
  { intros d Hd. unfold open_w.
    destruct (decide (path ∈ dirs d)); [|done].
    destruct (files d !! path_join path "dataset_dict.json") as [[| | |]|];
      simpl; by rewrite ?lookup_insert_ne. }
  apply (bind_keeps (λ d, files d !! p = Some f)); [|intros _].
  { intros d Hd. simpl. by rewrite lookup_insert_ne. }
  apply (for_each_keeps (λ d, files d !! p = Some f)).
  intros [k [ds|md]] d Hd; simpl; [|done].
  unfold table_save.
  destruct (decide (path_join path k = p)) as [->|Hne].
  - rewrite Hd. destruct f; simpl; try done; by destruct Hf.
  - destruct (files d !! path_join path k) as [[| | |]|];
      simpl; by rewrite ?lookup_insert_ne.
Qed.

(** X9: the three ways [save_to_disk] raises. The file [metadata.json]
    cannot be opened: nothing has changed. The store has no metadata record
    under [metadata]: the store is as before, but [metadata.json] has been
    emptied. The bulk save raises: [metadata.json] holds the metadata, and
    the store is left without its entry [metadata], which is not put
    back. *)
Theorem save_to_disk_failure path data d e data' d' :
  save_to_disk path (data, d) = (inl e, (data', d')) →
  (data' = data ∧ d' = d ∧
   (e = FileNotFoundError (path_join path "metadata.json") ∨
    e = IsADirectoryError (path_join path "metadata.json"))) ∨
  (data' = data ∧
   d' = with_file (path_join path "metadata.json") FEmpty d ∧
   ((data !! "metadata" = None ∧ e = KeyError (KStr "metadata")) ∨
    (∃ ds, data !! "metadata" = Some (EDataset ds) ∧ e = TypeError))) ∨
  (∃ md, data !! "metadata" = Some (EMetadata md) ∧
         data' = delete "metadata" data ∧
         files d' !! path_join path "metadata.json" = Some (FJsonMetadata md) ∧
         (bulk_save path (delete "metadata" data)
            (with_file (path_join path "metadata.json") (FJsonMetadata md) d)).1
         = inl e).
Proof.
  unfold save_to_disk, save_metadata, bind, on_disk, on_self, open_w, getitem.
  cbn [fst snd].
  destruct (decide (path ∈ dirs d)) as [Hdir|Hdir].
  2:{ intros [= <- <- <-]. left. split_and!; [done..|]. by left. }
  set (mdp := path_join path "metadata.json").
  destruct (files d !! mdp) as [[|md0|splits0|ds0]|] eqn:Hfile; cbn [fst snd].
  4:{ intros [= <- <- <-]. left. split_and!; [done..|]. by right. }
  all: destruct (data !! "metadata") as [[ds|md]|] eqn:Hmd; cbn [fst snd];
    [intros [= <- <- <-]; right; left; split_and!; [done..|];
       right; by exists ds
    |
    |intros [= <- <- <-]; right; left; split_and!; [done..|]; by left].
  all: unfold json_dump, modify, get, setitem; cbn [fst snd];
    rewrite ?Hmd; cbn [fst snd].
  all: set (d2 := with_file mdp (FJsonMetadata md) (with_file mdp FEmpty d)).
  all: assert (d2 = with_file mdp (FJsonMetadata md) d) as Hd2
    by (unfold d2, with_file; simpl; f_equal; apply insert_insert_eq).
  all: pose proof (bulk_save_keeps_file path (delete "metadata" data) d2 mdp
         (FJsonMetadata md)) as Hkeep.
  all: destruct (bulk_save path (delete "metadata" data) d2) as [[e'|[]] d3] eqn:Hb;
    cbn [fst snd]; [|done].
  all: intros [= <- <- <-]; right; right; exists md; split_and!; [done..| |].
  all: try (apply Hkeep;
    [by intros Heq%path_join_inj|by intros []|unfold d2; simpl; apply lookup_insert_eq]).
  all: by rewrite <-Hd2, Hb.
Qed.

Lemma load_splits_spec path (splits : list string) acc d :
  match load_splits path splits acc d with
  | (inr loaded, d') =>
      d' = d ∧
      (∀ k, k ∈ splits →
         ∃ ds, files d !! path_join path k = Some (FTable ds) ∧
               loaded !! k = Some (EDataset ds)) ∧
      (∀ k, k ∉ splits → loaded !! k = acc !! k)
  | (inl e, d') =>
      d' = d ∧
      ∃ k, k ∈ splits ∧ e = FileNotFoundError (path_join path k) ∧
           ∀ ds, files d !! path_join path k ≠ Some (FTable ds)
  end.
Proof.
  revert acc. induction splits as [|k splits IH]; intros acc; simpl.
  - split_and!; [done| |done]. by intros k Hk%elem_of_nil.
  - unfold bind, table_load.
    destruct (files d !! path_join path k) as [f|] eqn:Hf.
    2:{ split; [done|]. exists k. rewrite Hf.
        split_and!; [apply elem_of_cons; by left|done..]. }
    assert ((∃ ds, f = FTable ds) ∨ (∀ ds, f ≠ FTable ds)) as [[ds ->]|Hnt].
    { destruct f; try (right; by intros ?). left. by eexists. }
    2:{ assert (match f with
                | FTable ds => (inr ds, d)
                | _ => (inl (FileNotFoundError (path_join path k)), d)
                end = (inl (FileNotFoundError (path_join path k)), d)) as ->.
        { destruct f as [| | |ds]; try done. by destruct (Hnt ds). }
        split; [done|]. exists k. rewrite Hf.
        split_and!; [apply elem_of_cons; by left|done|].
        intros ds [= ->]. by destruct (Hnt ds). }
    specialize (IH (<[k := EDataset ds]> acc)).
    destruct (load_splits path splits _ d) as [[e|loaded] d'].
    + destruct IH as (-> & k' & Hk' & -> & Hnone). split; [done|].
      exists k'. split_and!; [apply elem_of_cons; by right|done..].
    + destruct IH as (-> & Hin & Hout). split_and!; [done| |].
      * intros k' Hk'. destruct (decide (k' ∈ splits)) as [|Hno]; [auto|].
        apply elem_of_cons in Hk' as [->|]; [|done].
        exists ds. split; [done|]. by rewrite Hout, lookup_insert_eq.
      * intros k' Hk'. apply not_elem_of_cons in Hk' as [Hne Hk'].
        by rewrite Hout, lookup_insert_ne.
Qed.

(** X10: [load_from_disk] never changes the file system. On a directory
    whose [metadata.json] holds a metadata record it returns exactly when
    [dataset_dict.json] lists splits that each have a saved table; the store
    it returns has that record under [metadata] (also when a split of that
    name is listed), the saved table under each other listed split, and no
    other key. *)
Theorem load_from_disk_spec path d md :
  files d !! path_join path "metadata.json" = Some (FJsonMetadata md) →
  (load_from_disk path d).2 = d ∧
  ((∃ loaded, (load_from_disk path d).1 = inr loaded) ↔
   ∃ splits,
     files d !! path_join path "dataset_dict.json" = Some (FJsonSplits splits) ∧
     ∀ k, k ∈ splits → ∃ ds, files d !! path_join path k = Some (FTable ds)) ∧
  (∀ loaded, (load_from_disk path d).1 = inr loaded →
   ∃ splits,
     files d !! path_join path "dataset_dict.json" = Some (FJsonSplits splits) ∧
     loaded !! "metadata" = Some (EMetadata md) ∧
     (∀ k, k ≠ "metadata" → k ∈ splits →
        ∃ ds, files d !! path_join path k = Some (FTable ds) ∧
              loaded !! k = Some (EDataset ds)) ∧
     (∀ k, k ≠ "metadata" → k ∉ splits → loaded !! k = None)).
Proof.
  intros Hmd. unfold load_from_disk, bulk_load, bind, get, json_load.
  destruct (files d !! path_join path "dataset_dict.json") as [fdd|] eqn:Hdd.
  2:{ simpl. split_and!; [done| |by intros ?].
      split; [by intros [? ?]|]. by intros (? & ? & _). }
  assert ((∃ splits, fdd = FJsonSplits splits) ∨
          (∀ splits, fdd ≠ FJsonSplits splits)) as [[splits ->]|Hns].
  { destruct fdd; try (right; by intros ?). left. by eexists. }
  2:{ assert (match fdd with
              | FJsonSplits splits => load_splits path splits ∅
              | _ => raise (ValueError "dataset_dict.json")
              end d = (inl (ValueError "dataset_dict.json"), d)) as ->.
      { destruct fdd as [| |splits|]; try done. by destruct (Hns splits). }
      simpl. split_and!; [done| |by intros ?].
      split; [by intros [? ?]|]. intros (splits & [= ->] & _).
      by destruct (Hns splits). }
  pose proof (load_splits_spec path splits ∅ d) as Hload.
  destruct (load_splits path splits ∅ d) as [[e|dataset] d'].
  { destruct Hload as (-> & k & Hk & -> & Hnone). simpl.
    split_and!; [done| |by intros ?].
    split; [by intros [? ?]|]. intros (splits' & [= <-] & Hall).
    destruct (Hall k Hk) as [ds Hds]. by destruct (Hnone ds). }
  destruct Hload as (-> & Hin & Hout). rewrite Hmd. simpl.
  split_and!; [done| |].
  - split; [|by eexists]. intros _. exists splits.
    split; [done|]. intros k Hk.
    destruct (Hin k Hk) as (ds & ? & _). by exists ds.
  - intros loaded [= <-]. exists splits. split_and!; [done| | |].
    + apply lookup_insert_eq.
    + intros k Hne Hk. destruct (Hin k Hk) as (ds & ? & ?).
      exists ds. split; [done|]. by rewrite lookup_insert_ne.
    + intros k Hne Hk. by rewrite lookup_insert_ne, Hout.
Qed.

End PersistenceFailures.

Lemma load_from_disk_spec_witness :
  (load_from_disk partition_dir saved_partition).2 = saved_partition ∧
  ∃ loaded, (load_from_disk partition_dir saved_partition).1 = inr loaded.
Proof.
  assert (files saved_partition !! path_join partition_dir "metadata.json"
          = Some (FJsonMetadata two_task_metadata)) as Hmd by (by vm_compute).
  destruct (load_from_disk_spec partition_dir saved_partition two_task_metadata Hmd)
    as (Hdisk & Hret & _).
  split; [done|]. apply Hret. exists ["train"]. split; [by vm_compute|].
  intros k ->%list_elem_of_singleton. eexists. by vm_compute.
Defined.

Lemma save_to_disk_failure_witness :
  ∃ data' d',
    save_to_disk partition_dir (local_labels, blocked_dir) =
      (inl (FileExistsError (path_join partition_dir (task_key 1 "train"))),
       (data', d')) ∧
    data' !! "metadata" = None ∧
    files d' !! path_join partition_dir "metadata.json"
      = Some (FJsonMetadata two_task_metadata).
Proof.
  assert ((save_to_disk partition_dir (local_labels, blocked_dir)).1
          = inl (FileExistsError (path_join partition_dir (task_key 1 "train"))))
    as Hexn by (vm_compute; reflexivity).
  destruct (save_to_disk partition_dir (local_labels, blocked_dir))
    as [r [data' d']] eqn:Hrun. simpl in Hexn. subst r.
  assert (local_labels !! "metadata" = Some (EMetadata two_task_metadata))
    as Hmd by (vm_compute; reflexivity).
  exists data', d'. split; [done|].
  destruct (save_to_disk_failure _ _ _ _ _ _ Hrun)
    as [(_ & _ & [He|He])|[(_ & _ & [[_ He]|(ds & _ & He)])|(md & Hmd' & -> & Hfile & _)]];
    try discriminate He.
  split; [apply lookup_delete_eq|]. congruence.
Defined.

(** ** The anchors that the datamodule hands to every task *)

Lemma task_key_ne_anchors i m : task_key i m ≠ "anchors".
Proof. unfold task_key. simpl. discriminate. Qed.

(** X11: the loop of the datamodule raises the [KeyError] of ["anchors"]
    on a store without that key, before any assignment; otherwise it returns,
    the anchor split of every task 0..num_tasks is the entry under
    ["anchors"], nothing else has changed, and when that entry is a table
    the anchor check of the analysis returns on the store. *)
Theorem share_anchors_spec {F} (n : nat) (data : gmap string (@entry F)) :
  match data !! "anchors" with
  | None => share_anchors n data = (inl (KeyError (KStr "anchors")), data)
  | Some a =>
      ∃ data',
        share_anchors n data = (inr (), data') ∧
        (∀ i, i ≤ n → data' !! task_key i "anchors" = Some a) ∧
        (∀ k, (∀ i, i ≤ n → k ≠ task_key i "anchors") → data' !! k = data !! k) ∧
        ((∃ ds, a = EDataset ds) → (check_same_anchor_ids n data').1 = inr ())
  end.
Proof.
  destruct (data !! "anchors") as [a|] eqn:Ha.
  2:{ unfold share_anchors, range.
      replace (n + 1 - 0) with (S n) by lia. simpl.
      unfold bind, getitem. by rewrite Ha. }
  pose proof (for_each_inv
    (λ done s,
       (∀ i, i ∈ done → s !! task_key i "anchors" = Some a) ∧
       (∀ k, (∀ i, i ∈ done → k ≠ task_key i "anchors") → s !! k = data !! k))
    (λ _, False)
    (λ task_ind, anchors <- getitem "anchors" ;;
                 setitem (task_key task_ind "anchors") anchors)
    (range 0 (n + 1)) data) as Hinv.
  fold (@share_anchors F n) in Hinv.
  match type of Hinv with _ → _ → ?C =>
    assert C as Hrun; [apply Hinv; clear Hinv|clear Hinv] end.
  - split; [by intros i Hi%elem_of_nil|done].
  - intros done x rest s _ [Hdone Hframe].
    unfold bind, getitem. rewrite Hframe, Ha.
    2:{ intros i _ Heq. symmetry in Heq. by apply task_key_ne_anchors in Heq. }
    simpl. split.
    + intros i [Hi| ->]%elem_of_snoc.
      * destruct (decide (task_key i "anchors" = task_key x "anchors")) as [->|Hne].
        -- apply lookup_insert_eq.
        -- rewrite lookup_insert_ne by done. by apply Hdone.
      * apply lookup_insert_eq.
    + intros k Hk. rewrite lookup_insert_ne.
      * apply Hframe. intros i Hi. apply Hk, elem_of_snoc. by left.
      * intros Heq. apply (Hk x); [apply elem_of_snoc; by right|done].
  - destruct (share_anchors n data) as [[e|[]] data']; [done|].
    destruct Hrun as [Hnew Hframe]. exists data'.
    assert (∀ i, i ≤ n → data' !! task_key i "anchors" = Some a) as Hall.
    { intros i Hi. apply Hnew, elem_of_range. lia. }
    split_and!; [done..| |].
    + intros k Hk. apply Hframe. intros i Hi%elem_of_range. apply Hk. lia.
    + intros [ds ->].
      change (check_same_anchor_ids n data') with
        (for_each (range 0 (n + 1))
           (λ i, for_each (range i (n + 1)) (anchor_pair i)) data').
      apply for_each_readonly_ok.
      { intros i. apply readonly_for_each. intros j. apply readonly_anchor_pair. }
      intros i Hi%elem_of_range.
      apply for_each_readonly_ok; [apply readonly_anchor_pair|].
      intros j Hj%elem_of_range.
      rewrite (anchor_pair_run data' i j (ds_id ds) (ds_id ds)).
      * apply assert_all_eq_refl.
      * unfold ids_of. by rewrite Hall by lia.
      * unfold ids_of. by rewrite Hall by lia.
Qed.

(** ** Sample ids *)

Lemma ids_at_seq (pre ids : list Z) :
  ids_at (pre ++ ids)%list (seq (length pre) (length ids)) = inr ids.
Proof.
  revert pre. induction ids as [|i ids IH]; intros pre; simpl; [done|].
  rewrite list_lookup_middle by done.
  replace (pre ++ i :: ids)%list with ((pre ++ [i]) ++ ids)%list
    by (by rewrite <-app_assoc).
  specialize (IH (pre ++ [i])%list).
  rewrite length_app in IH. simpl in IH.
  replace (length pre + 1) with (S (length pre)) in IH by lia.
  by rewrite IH.
Qed.

Lemma map_with_indices_all {A} (ds : IdTable A) (ids : list Z) :
  length ids = length (it_rows ds) →
  map_with_indices ds ids = inr {| it_rows := it_rows ds; it_id := Some ids |}.
Proof.
  intros Hlen. unfold map_with_indices. rewrite <-Hlen.
  pose proof (ids_at_seq [] ids) as Hids. simpl in Hids. by rewrite Hids.
Qed.

(** X12: [add_ids_to_dataset] raises only the [KeyError] of a missing split
    train or test, before any change. Otherwise it returns; the rows of the
    two splits are as before, the train rows have the ids 0..N-1 and the
    test rows the ids N..N+M-1 in row order, so that no id occurs twice
    across the two splits; every other split is as before and gets no
    ids. *)
Theorem add_ids_to_dataset_spec {A} (dataset : gmap string (IdTable A)) :
  match add_ids_to_dataset dataset with
  | inr dataset' =>
      ∃ train test train_ids test_ids,
        dataset !! "train" = Some train ∧ dataset !! "test" = Some test ∧
        dataset' !! "train"
          = Some {| it_rows := it_rows train; it_id := Some train_ids |} ∧
        dataset' !! "test"
          = Some {| it_rows := it_rows test; it_id := Some test_ids |} ∧
        length train_ids = length (it_rows train) ∧
        length test_ids = length (it_rows test) ∧
        (train_ids ++ test_ids)%list =
          Z.of_nat <$> seq 0 (length (it_rows train) + length (it_rows test)) ∧
        NoDup (train_ids ++ test_ids)%list ∧
        (∀ k, k ≠ "train" → k ≠ "test" → dataset' !! k = dataset !! k)
  | inl e =>
      (dataset !! "train" = None ∧ e = IdsKeyError "train") ∨
      (is_Some (dataset !! "train") ∧ dataset !! "test" = None ∧
       e = IdsKeyError "test")
  end.
Proof.
  unfold add_ids_to_dataset.
  destruct (dataset !! "train") as [train|] eqn:Htrain; [|by left].
  destruct (dataset !! "test") as [test|] eqn:Htest; [|right; by eauto].
  set (N := length (it_rows train)). set (M := length (it_rows test)).
  cbn [add_ids_loop]. rewrite Htrain.
  rewrite lookup_insert_ne by done. rewrite lookup_insert_eq.
  rewrite map_with_indices_all
    by (unfold range; rewrite length_fmap, length_seq; fold N; lia).
  rewrite lookup_insert_ne by done. rewrite Htest, lookup_insert_eq.
  rewrite map_with_indices_all
    by (unfold range; rewrite length_fmap, length_seq; fold M; lia).
  unfold range. replace (N - 0) with N by lia. replace (N + M - N) with M by lia.
  exists train, test, (Z.of_nat <$> seq 0 N), (Z.of_nat <$> seq N M).
  split_and!; [done..| | | | | | |].
  - rewrite lookup_insert_ne by done. apply lookup_insert_eq.
  - apply lookup_insert_eq.
  - by rewrite length_fmap, length_seq.
  - by rewrite length_fmap, length_seq.
  - by rewrite <-fmap_app, <-seq_app.
  - rewrite <-fmap_app, <-seq_app.
    apply (NoDup_fmap_2 Z.of_nat), NoDup_seq.
  - intros k Hk1 Hk2. by rewrite !lookup_insert_ne.
Qed.

(** ** The checkpoint callback *)

(** X13: [get_checkpoint_callback] returns the first callback of the list
    that is a [ModelCheckpoint], whatever comes after it, and [None] exactly
    when the list has none. *)
Theorem get_checkpoint_callback_first {C} (is_checkpoint : C → bool)
    (callbacks : list C) :
  match get_checkpoint_callback is_checkpoint callbacks with
  | Some callback =>
      ∃ before after,
        callbacks = (before ++ callback :: after)%list ∧
        is_checkpoint callback = true ∧
        Forall (λ c, is_checkpoint c = false) before
  | None => Forall (λ c, is_checkpoint c = false) callbacks
  end.
Proof.
  induction callbacks as [|c callbacks IH]; simpl; [done|].
  destruct (is_checkpoint c) eqn:Hc.
  - by exists [], callbacks.
  - destruct (get_checkpoint_callback is_checkpoint callbacks) as [c'|].
    + destruct IH as (before & after & -> & Hc' & Hbefore).
      exists (c :: before), after. split_and!; [done..|]. by constructor.
    + by constructor.
Qed.

(** ** Scatter on 1-D integer tensors *)

Lemma wrap64_int64 z : is_int64 (wrap64 z).
Proof.
  unfold is_int64, wrap64.
  pose proof (Z.mod_pos_bound (z + 2 ^ 63) (2 ^ 64) ltac:(lia)). lia.
Qed.

Lemma wrap64_mod z : (wrap64 z mod 2 ^ 64 = z mod 2 ^ 64)%Z.
Proof.
  unfold wrap64. rewrite Zminus_mod_idemp_l. f_equal. lia.
Qed.

Lemma wrap64_id z : is_int64 z → wrap64 z = z.
Proof.
  unfold is_int64, wrap64. intros Hz.
  rewrite Z.mod_small by lia. lia.
Qed.

Lemma int64_eq_wrap x y :
  is_int64 x → (x mod 2 ^ 64 = y mod 2 ^ 64)%Z → x = wrap64 y.
Proof.
  intros Hx Hxy. rewrite <-(wrap64_id x Hx). unfold wrap64.
  rewrite <-(Zplus_mod_idemp_l x), Hxy, Zplus_mod_idemp_l. done.
Qed.

Lemma expand_length src n idx : expand src n = inr idx → length idx = n.
Proof.
  unfold expand. destruct (Nat.eqb_spec (length src) n) as [<-|_].
  - by intros [= ->].
  - destruct src as [|x [|y src]]; try done.
    intros [= <-]. apply length_replicate.
Qed.

(** The values of an expanded tensor are values of the tensor; and the
    other way round, unless the tensor is expanded to no element. *)
Lemma expand_elem_of src n idx i :
  expand src n = inr idx → i ∈ idx → i ∈ src.
Proof.
  unfold expand. destruct (length src =? n); [by intros [= ->]|].
  destruct src as [|x [|y src]]; try done.
  intros [= <-] [-> _]%elem_of_replicate. by left.
Qed.

Lemma expand_elem_of_inv src n idx i :
  expand src n = inr idx → (n ≠ 0 ∨ length src ≠ 1) → i ∈ src → i ∈ idx.
Proof.
  unfold expand. destruct (length src =? n); [by intros [= ->]|].
  destruct src as [|x [|y src]]; try done.
  intros [= <-] [Hn|Hl] Hi; [|done].
  apply list_elem_of_singleton in Hi as ->. by apply elem_of_replicate.
Qed.

Lemma bucket_sum_cons i s index src j :
  bucket_sum (i :: index) (s :: src) j =
  ((if (i =? Z.of_nat j)%Z then s else 0) + bucket_sum index src j)%Z.
Proof. done. Qed.

Lemma scatter_add_loop_length out index src res :
  scatter_add_loop out index src = inr res → length res = length out.
Proof.
  revert out src. induction index as [|i index IH]; intros out src; simpl.
  - by intros [= ->].
  - destruct src as [|s src]; [by intros [= ->]|].
    destruct ((0 <=? i) && (i <? Z.of_nat (length out)))%Z; [|done].
    intros Hres%IH. by rewrite Hres, length_alter.
Qed.

(** The loop returns exactly when the indices it visits are within the
    output. *)
Lemma scatter_add_loop_returns out index src :
  length index ≤ length src →
  (∃ res, scatter_add_loop out index src = inr res) ↔
  Forall (λ i, 0 ≤ i < Z.of_nat (length out))%Z index.
Proof.
  revert out src. induction index as [|i index IH]; intros out src Hlen; simpl.
  - split; [by constructor|by eexists].
  - destruct src as [|s src]; simpl in Hlen; [lia|].
    destruct ((0 <=? i) && (i <? Z.of_nat (length out)))%Z eqn:Hi.
    + rewrite (IH _ src) by lia. rewrite length_alter.
      split; [|by inversion 1]. constructor; [lia|done].
    + split; [by intros [? ?]|]. inversion 1; lia.
Qed.

Lemma scatter_add_loop_raises out index src e :
  scatter_add_loop out index src = inl e →
  ∃ i, i ∈ index ∧ ¬ (0 ≤ i < Z.of_nat (length out))%Z ∧
       e = IndexOutOfBounds i (length out).
Proof.
  revert out src. induction index as [|i index IH]; intros out src; simpl; [done|].
  destruct src as [|s src]; [done|].
  destruct ((0 <=? i) && (i <? Z.of_nat (length out)))%Z eqn:Hi.
  - intros (i' & Hi' & Hout & ->)%IH. rewrite length_alter in *.
    exists i'. split_and!; [by right|done..].
  - intros [= <-]. exists i. split_and!; [by left|lia|done].
Qed.

(** What the loop adds to each entry, modulo 2^64. *)
Lemma scatter_add_loop_buckets out index src res j v :
  scatter_add_loop out index src = inr res → out !! j = Some v →
  ∃ v', res !! j = Some v' ∧
        (v' mod 2 ^ 64 = (v + bucket_sum index src j) mod 2 ^ 64)%Z ∧
        (is_int64 v → is_int64 v').
Proof.
  revert out src v. induction index as [|i index IH]; intros out src v; simpl.
  - intros [= ->] Hj. exists v. split_and!; [done| |done].
    unfold bucket_sum. simpl. f_equal. lia.
  - destruct src as [|s src].
    { intros [= ->] Hj. exists v. split_and!; [done| |done].
      unfold bucket_sum. simpl. f_equal. lia. }
    destruct ((0 <=? i) && (i <? Z.of_nat (length out)))%Z eqn:Hi; [|done].
    intros Hres Hj. rewrite bucket_sum_cons.
    destruct (decide (Z.to_nat i = j)) as [Hij|Hij].
    + destruct (IH _ _ (wrap64 (v + s)) Hres) as (v' & Hv' & Hmod & Hrange).
      { subst j. by rewrite list_lookup_alter_eq, Hj. }
      exists v'. split_and!; [done| |intros _; apply Hrange, wrap64_int64].
      rewrite Hmod. replace (i =? Z.of_nat j)%Z with true by lia.
      rewrite <-Zplus_mod_idemp_l, wrap64_mod, Zplus_mod_idemp_l.
      f_equal. lia.
    + destruct (IH _ _ v Hres) as (v' & Hv' & Hmod & Hrange).
      { by rewrite list_lookup_alter_ne. }
      exists v'. split_and!; [done| |done].
      rewrite Hmod. replace (i =? Z.of_nat j)%Z with false by lia.
      f_equal; lia.
Qed.

Lemma tensor_max_ge x t i : i ∈ x :: t → (i ≤ foldr Z.max x t)%Z.
Proof.
  induction t as [|y t IH]; simpl.
  - intros ->%list_elem_of_singleton. lia.
  - rewrite !elem_of_cons. intros [->|[->|Hi]].
    + assert (x ≤ foldr Z.max x t)%Z by (apply IH; by left). lia.
    + lia.
    + assert (i ≤ foldr Z.max x t)%Z by (apply IH; by right). lia.
Qed.

Lemma tensor_max_elem x t : foldr Z.max x t ∈ x :: t.
Proof.
  induction t as [|y t IH]; simpl; [by left|].
  destruct (Z.max_spec y (foldr Z.max x t)) as [[_ ->]|[_ ->]].
  - apply elem_of_cons in IH as [->|IH]; [by left|]. right. by right.
  - right. by left.
Qed.

(** X14: [scatter_sum(src, index)] with the default arguments. When it
    returns, no index is negative, the output has one entry for each bucket
    0..max(index) (none when there is no index), and entry [j] is the sum,
    as an int64, of the entries of [src] whose index is [j]. When it raises,
    either the index cannot be expanded to the size of [src], or some index
    is negative. *)
Theorem scatter_sum_spec (src index : list Z) :
  match scatter_sum src index None None with
  | inr out =>
      ∃ idx, broadcast index src = inr idx ∧
             length idx = length src ∧
             Forall (λ i, 0 ≤ i)%Z idx ∧
             length out = (if decide (idx = []) then 0
                           else Z.to_nat (tensor_max idx + 1)) ∧
             ∀ j, j < length out →
                  out !! j = Some (wrap64 (bucket_sum idx src j))
  | inl e =>
      broadcast index src = inl e ∨
      ∃ idx i, broadcast index src = inr idx ∧ i ∈ idx ∧ (i < 0)%Z
  end.
Proof.
  unfold scatter_sum.
  destruct (broadcast index src) as [e|idx] eqn:Hb; [by left|].
  pose proof (expand_length _ _ _ Hb) as Hlen.
  destruct idx as [|i0 idx]; simpl.
  - destruct src; [|done]. simpl.
    exists []. split_and!; [done..|constructor|done|]. simpl. lia.
  - set (t := i0 :: idx) in *. set (m := foldr Z.max i0 idx).
    assert (∀ i, i ∈ t → i ≤ m)%Z as Hmax by apply tensor_max_ge.
    assert (m ∈ t) as Hm by apply tensor_max_elem.
    unfold zeros. destruct (Z.ltb_spec (m + 1) 0) as [Hneg|Hpos].
    { right. exists t, m. split_and!; [done..|lia]. }
    unfold scatter_add. rewrite Hlen, Nat.leb_refl.
    destruct (scatter_add_loop _ t src) as [e|out] eqn:Hloop.
    + apply scatter_add_loop_raises in Hloop as (i & Hi & Hout & _).
      right. exists t, i. split_and!; [done..|].
      rewrite length_replicate in Hout. specialize (Hmax i Hi). lia.
    + pose proof (scatter_add_loop_length _ _ _ _ Hloop) as Hout.
      rewrite length_replicate in Hout.
      assert (Forall (λ i, 0 ≤ i < Z.of_nat (Z.to_nat (m + 1)))%Z t) as Hall.
      { rewrite <-(length_replicate (Z.to_nat (m + 1)) 0%Z).
        apply (scatter_add_loop_returns _ t src); [lia|by eexists]. }
      exists t. split_and!; [done..| | |].
      * eapply Forall_impl; [done|]. simpl. lia.
      * done.
      * intros j Hj.
        destruct (scatter_add_loop_buckets _ _ _ _ j 0%Z Hloop)
          as (v' & Hv' & Hmod & Hrange).
        { apply lookup_replicate. split; [done|lia]. }
        rewrite Hv'. f_equal. apply int64_eq_wrap.
        -- apply Hrange. unfold is_int64. lia.
        -- by rewrite Hmod.
Qed.

(** ** The projection: what the new column holds *)





(** C4 (amended): on a store fit for the projection the stage returns also
    when an anchor or a sample vector has zero norm: no norm is tested and
    no error is raised. The column [relative_embeddings] is added all the
    same, N rows of A entries, and the vector of zero norm is divided, like
    any other, by its norm clamped from below by eps = 1e-12: its entries
    are the inner products of the vector so divided. This holds for any
    backend, [zero] being the norm that the backend computes. *)
Theorem map_to_relative_zero_norm {F} `{TensorOps F}
    (data : gmap string (@entry F)) (n d : nat) (zero : F) :
  projection_wf data n d →
  ∃ data',
    map_to_relative n data = (inr (), data') ∧
    ∀ i mode, i ≤ n → mode ∈ projection_modes →
      ∃ anchors ds ds' rel_space,
        table_of data (task_key i "anchors") = Some anchors ∧
        table_of data (task_key i mode) = Some ds ∧
        table_of data' (task_key i mode) = Some ds' ∧
        ds_relative_embeddings ds' = Some rel_space ∧
        length rel_space = ds_len ds ∧
        has_width (length (ds_embedding anchors)) rel_space ∧
        (∀ r x c a,
           ds_embedding ds !! r = Some x →
           ds_embedding anchors !! c = Some a →
           vector_norm x = zero →
           ∃ row,
             rel_space !! r = Some row ∧
             row !! c =
               Some (dot (map (λ v, fdiv v (clamp_min zero eps)) x)
                         (map (λ v, fdiv v (clamp_min (vector_norm a) eps)) a))) ∧
        (∀ r x c a,
           ds_embedding ds !! r = Some x →
           ds_embedding anchors !! c = Some a →
           vector_norm a = zero →
           ∃ row,
             rel_space !! r = Some row ∧
             row !! c =
               Some (dot (map (λ v, fdiv v (clamp_min (vector_norm x) eps)) x)
                         (map (λ v, fdiv v (clamp_min zero eps)) a))).
Proof.
  intros Hwf.
  destruct (map_to_relative_entries data n d Hwf) as (data' & Hrun & Hnew).
  exists data'. split; [done|]. intros i mode Hi Hmode.
  destruct (Hnew i mode Hi Hmode)
    as (anchors & ds & ds' & rel & Ha & Hds & Hds' & Hrel & _ & _ & _ & Hlen & Hw & Hent).
  exists anchors, ds, ds', rel. split_and!; [done..| |].
  - intros r x c a Hx Hc <-. by apply Hent.
  - intros r x c a Hx Hc <-. by apply Hent.
Qed.

Lemma diagonal_f32_wf : projection_wf diagonal_f32 0 2.
Proof.
  split; [lia|]. intros i Hi. assert (i = 0) as -> by lia. split.
  - eexists. split; [vm_compute; reflexivity|]. split; [done|].
    by repeat constructor.
  - intros mode Hmode. unfold projection_modes in Hmode.
    rewrite !elem_of_cons, elem_of_nil in Hmode.
    destruct Hmode as [->|[->|[]]]; eexists;
      (split; [vm_compute; reflexivity|]); split; by repeat constructor.
Defined.

Lemma map_to_relative_zero_norm_witness :
  vector_norm [f32_of_Z 0; f32_of_Z 0] = S754_zero false ∧
  ∃ data' ds' row,
    map_to_relative 0 diagonal_f32 = (inr (), data') ∧
    table_of data' (task_key 0 "train") = Some ds' ∧
    ds_relative_embeddings ds' ≫= (λ rel, rel !! 0) = Some row ∧
    row !! 0 = Some (S754_zero false).
Proof.
  assert (vector_norm [f32_of_Z 0; f32_of_Z 0] = S754_zero false) as Hnorm
    by (vm_compute; reflexivity).
  split; [done|].
  destruct (map_to_relative_zero_norm diagonal_f32 0 2 (S754_zero false)
              diagonal_f32_wf) as (data' & Hrun & Hnew).
  destruct (Hnew 0 "train" (le_n 0)) as
    (anchors & ds & ds' & rel & Ha & Hds & Hds' & Hrel & _ & _ & Hsample & _).
  { unfold projection_modes. rewrite !elem_of_cons. auto. }
  vm_compute in Ha. injection Ha as <-.
  vm_compute in Hds. injection Hds as <-.
  destruct (Hsample 0 [S754_zero false; S754_zero false] 0
              [S754_finite false 12582912 (-22); S754_finite false 12582912 (-22)]
              eq_refl eq_refl Hnorm) as (row & Hrow & Hrc).
  exists data', ds', row. split_and!; [done..|by rewrite Hrel|].
  rewrite Hrc. vm_compute. reflexivity.
Defined.




(** ** The mean that is a sum *)

Lemma scatter_sum_inv src index out dim_size res :
  scatter_sum src index out dim_size = inr res →
  ∃ idx input,
    broadcast index src = inr idx ∧
    length idx = length src ∧
    scatter_add_loop input idx src = inr res.
Proof.
  unfold scatter_sum.
  destruct (broadcast index src) as [e|idx] eqn:Hb; [done|].
  pose proof (expand_length _ _ _ Hb) as Hlen.
  assert (∀ input, scatter_add input idx src = inr res →
                   scatter_add_loop input idx src = inr res) as Hadd.
  { intros input. unfold scatter_add. by rewrite Hlen, Nat.leb_refl. }
  destruct out as [o|].
  - intros Hres%Hadd. by exists idx, o.
  - destruct (zeros _) as [e|z]; [done|].
    intros Hres%Hadd. by exists idx, z.
Qed.

(** X15: [scatter_mean] returns what [scatter_sum] returns, the sums and not
    the means: the quotient that [torch.div] computes is dropped, and no
    statement after the first [scatter_sum] raises. This holds for every
    input but an index of one element against an empty [src]. *)
Theorem scatter_mean_returns_sums (src index : list Z) (out : option (list Z))
    (dim_size : option Z) :
  src ≠ [] ∨ length index ≠ 1 →
  scatter_mean src index out dim_size = scatter_sum src index out dim_size.
Proof.
  intros Hin. unfold scatter_mean.
  destruct (scatter_sum src index out dim_size) as [e|res] eqn:Hsum; [done|].
  apply scatter_sum_inv in Hsum as (idx & input & Hb & Hlen & Hloop).
  pose proof (scatter_add_loop_length _ _ _ _ Hloop) as Hres.
  assert (Forall (λ i, 0 ≤ i < Z.of_nat (length res))%Z index) as Hbounds.
  { assert (Forall (λ i, 0 ≤ i < Z.of_nat (length input))%Z idx) as Hidx.
    { apply (scatter_add_loop_returns input idx src); [lia|by eexists]. }
    rewrite Hres. apply Forall_forall. intros i Hi.
    apply (proj1 (Forall_forall _ _) Hidx).
    apply (expand_elem_of_inv index (length src) idx i Hb); [|done].
    destruct Hin as [Hsrc|Hone]; [|by right].
    left. by destruct src. }
  (* the count *)
  unfold scatter_sum at 1. unfold broadcast at 1, expand.
  rewrite length_replicate, Nat.eqb_refl.
  unfold zeros. destruct (Z.ltb_spec (Z.of_nat (length res)) 0) as [|_]; [lia|].
  rewrite Nat2Z.id. unfold scatter_add.
  rewrite length_replicate, Nat.leb_refl.
  destruct (proj2 (scatter_add_loop_returns (replicate (length res) 0%Z) index
                     (replicate (length index) 1%Z)
                     ltac:(by rewrite length_replicate)))
    as [count Hcount].
  { by rewrite length_replicate. }
  rewrite Hcount.
  pose proof (scatter_add_loop_length _ _ _ _ Hcount) as Hclen.
  rewrite length_replicate in Hclen.
  (* the clamp, the broadcast and the division *)
  unfold broadcast, expand. rewrite length_map, Hclen, Nat.eqb_refl.
  unfold floor_div. rewrite length_map, Hclen, Nat.eqb_refl.
  assert (forallb (λ x, negb (x =? 0)%Z)
            (map (λ c, if (c <? 1)%Z then 1%Z else c) count) = true) as ->; [|done].
  apply forallb_forall. intros c (c0 & <- & _)%in_map_iff.
  destruct (Z.ltb_spec c0 1); apply negb_true_iff, Z.eqb_neq; lia.
Qed.

Lemma scatter_mean_returns_sums_witness :
  scatter_mean [10; 20; 30]%Z [0; 2; 0]%Z None None = inr [40; 0; 20]%Z.
Proof.
  rewrite (scatter_mean_returns_sums [10; 20; 30]%Z [0; 2; 0]%Z None None);
    [by vm_compute|by left].
Defined.

(** ** Stages that only read the store *)

(** X16: the anchor check and the merge stage leave the store as it is,
    whether they return or raise. *)
Theorem check_and_merge_read_only {F} (n : nat) (data : gmap string (@entry F)) :
  (check_same_anchor_ids n data).2 = data ∧ (merge_stage n data).2 = data.
Proof.
  split; [apply check_same_anchor_ids_readonly|apply merge_stage_readonly].
Qed.
